(** * Vector-index lifecycle and lock coordination of the database repository

    A shallow embedding of [server/src/repositories/database.repository.ts]:
    the pure index-statement templates, the drift check, the reindex and
    extension-upgrade orchestration as programs over an event log, and the
    two-tier lock protocol as sequential programs and as an interleaving
    transition system; and of the migrations of [server/src/migrations]
    that build the vector indexes, as programs over the log of what they
    send. *)

From Stdlib Require Import ZArith Lia Ascii.
From stdpp Require Import base option list strings gmap pretty.

Set Warnings "-clear-no-such-hyp".

(** ** Outcomes of fallible code

    A TypeScript function either returns a value or throws.  One constructor
    per [throw new Error(...)] template of the source, and one for a failure
    raised by code handed in from outside (a callback, a library). *)

Inductive DatabaseExtension :=
| VECTORCHORD
| VECTORS
| VECTOR
| OtherExtension (name : string).

Inductive Error :=
| UnsupportedVectorExtension (extension : DatabaseExtension)
| ExtensionNotInstalled (extension : DatabaseExtension)
| NoAvailableVersion (extension : DatabaseExtension)
| CouldNotRetrieveDimensionSize
| Foreign (message : string).

Inductive Result (A : Type) :=
| Ok (value : A)
| Err (error : Error).
Arguments Ok {A} value.
Arguments Err {A} error.

Global Instance DatabaseExtension_eq_dec : EqDecision DatabaseExtension.
Proof. solve_decision. Defined.

Global Instance Error_eq_dec : EqDecision Error.
Proof. solve_decision. Defined.

(** ** Strings as the source uses them *)

Module Str.

Definition nl : string := String (Ascii.ascii_of_nat 10) "".

(** [String.prototype.includes]: [needle] occurs somewhere in [hay]. *)
Fixpoint includes (hay needle : string) : bool :=
  String.prefix needle hay ||
  match hay with
  | EmptyString => false
  | String _ rest => includes rest needle
  end.

Definition lower_ascii (c : Ascii.ascii) : Ascii.ascii :=
  let n := Ascii.nat_of_ascii c in
  if (65 <=? n)%nat && (n <=? 90)%nat then Ascii.ascii_of_nat (n + 32) else c.

(** [String.prototype.toLowerCase] on the ASCII letters; other bytes are
    left as they are. *)
Fixpoint toLowerCase (s : string) : string :=
  match s with
  | EmptyString => EmptyString
  | String c rest => String (lower_ascii c) (toLowerCase rest)
  end.

Definition ends_with (s suffix : string) : Prop :=
  ∃ front, s = front +:+ suffix.

End Str.

(** ** [createVectorIndex] *)

Definition createVectorIndex
    (vectorExtension : DatabaseExtension) (tableName indexName : string)
  : Result string :=
  match vectorExtension with
  | VECTORCHORD =>
      Ok (Str.nl +:+
          "        CREATE INDEX IF NOT EXISTS " +:+ indexName +:+ " ON " +:+ tableName +:+
          " USING vchordrq (embedding vector_cosine_ops) WITH (options = $$" +:+ Str.nl +:+
          "        residual_quantization = false" +:+ Str.nl +:+
          "        [build.internal]" +:+ Str.nl +:+
          "        lists = [1000]" +:+ Str.nl +:+
          "        spherical_centroids = true" +:+ Str.nl +:+
          "        $$)")
  | VECTORS =>
      Ok (Str.nl +:+
          "        CREATE INDEX IF NOT EXISTS " +:+ indexName +:+ " ON " +:+ tableName +:+
          " USING vectors (embedding vector_cos_ops) WITH (options = $$" +:+ Str.nl +:+
          "        [indexing.hnsw]" +:+ Str.nl +:+
          "        m = 16" +:+ Str.nl +:+
          "        ef_construction = 300" +:+ Str.nl +:+
          "        $$)")
  | VECTOR =>
      Ok (Str.nl +:+
          "        CREATE INDEX IF NOT EXISTS " +:+ indexName +:+ Str.nl +:+
          "        ON " +:+ tableName +:+ Str.nl +:+
          "        USING hnsw (embedding vector_cosine_ops)")
  | OtherExtension _ => Err (UnsupportedVectorExtension vectorExtension)
  end.

(** ** [shouldReindex] *)

(** A row of [pg_indexes] as the query selects it. *)
Record IndexRow := { indexdef : string; indexname : string }.

(** The access-method keyword the [switch] of [shouldReindex] fixes. *)
Definition reindex_keyword (vectorExtension : DatabaseExtension) : Result string :=
  match vectorExtension with
  | VECTOR => Ok "using hnsw"
  | VECTORCHORD => Ok "using vchordrq"
  | VECTORS => Ok "using vectors"
  | OtherExtension _ => Err (UnsupportedVectorExtension vectorExtension)
  end.

(** [rows.find((index) => index.indexname === name)]: the first such row. *)
Definition find_row (rows : list IndexRow) (name : string) : option IndexRow :=
  List.find (λ index, bool_decide (indexname index = name)) rows.

(** [!rows.find(...)?.indexdef.toLowerCase().includes(keyword)]: the optional
    chain yields [undefined] when no row is found, and [!undefined] is
    [true]. *)
Definition needs_rebuild (rows : list IndexRow) (keyword name : string) : bool :=
  match find_row rows name with
  | None => true
  | Some index => negb (Str.includes (Str.toLowerCase (indexdef index)) keyword)
  end.

(** The value the query is given for [${names}].  The template binds the
    whole array as one parameter, and the driver (not under [src]) sends a
    parameter whose type it does not know as its JavaScript string: for an
    array, the elements joined by commas. *)
Definition bound_text (names : list string) : string := String.concat "," names.

(** The [pg_indexes] query: [WHERE indexname = ANY(ARRAY[$1])].  The array
    built in the statement has the one bound value as its only element, so
    a row is selected when its name equals that value: for a request of one
    name the rows of that name, for a longer request the rows named like the
    joined text. *)
Definition select_pg_indexes (pg_indexes : list IndexRow) (names : list string)
  : list IndexRow :=
  filter (λ index, indexname index = bound_text names) pg_indexes.

Definition shouldReindex
    (vectorExtension : DatabaseExtension) (pg_indexes : list IndexRow)
    (names : list string)
  : Result (list bool) :=
  let rows := select_pg_indexes pg_indexes names in
  match reindex_keyword vectorExtension with
  | Ok keyword => Ok (map (needs_rebuild rows keyword) names)
  | Err e => Err e
  end.

(** The rebuild rule in the words of the specification: no live definition
    carries the name, or the definition found for it (the first, should the
    catalog list several) does not contain the keyword once lower-cased. *)
Definition spec_needs_rebuild
    (pg_indexes : list IndexRow) (keyword name : string) : Prop :=
  (∀ index, index ∈ pg_indexes → indexname index ≠ name)
  ∨ (∃ index, find_row pg_indexes name = Some index
              ∧ Str.includes (Str.toLowerCase (indexdef index)) keyword = false).

(** [result] flags each of [names], in order, by that rule. *)
Definition flags_follow
    (keyword : string) (pg_indexes : list IndexRow) (names : list string)
    (result : Result (list bool)) : Prop :=
  ∃ flags, result = Ok flags
           ∧ Forall2 (λ name flag,
                        flag = true ↔ spec_needs_rebuild pg_indexes keyword name)
                     names flags.

(** ** The repository's effects

    Statements sent to the database, transaction brackets and log lines are
    appended to an event log; catalog reads are lookups in a snapshot.  A
    statement is modelled as accepted by the engine: the failures are the
    ones the source raises itself. *)

Inductive VectorIndex := CLIP | FACE.

Global Instance VectorIndex_eq_dec : EqDecision VectorIndex.
Proof. solve_decision. Defined.

(** The result classes of [semver.diff]. *)
Inductive ReleaseType :=
| major | premajor | minor | preminor | patch | prepatch | prerelease.

Global Instance ReleaseType_eq_dec : EqDecision ReleaseType.
Proof. solve_decision. Defined.

Record ExtensionVersion := {
  availableVersion : option string;
  installedVersion : option string
}.

Record VectorUpdateResult := { restartRequired : bool }.

Inductive LogLevel := LogInfo | LogWarn.

(** Where a statement runs: on the shared handle [this.db], or inside the
    transaction with the given number. *)
Inductive Executor := OnDb | OnTx (tx : nat).

#[warnings="-register-all"] Inductive Event :=
| Logged (level : LogLevel) (message : string)
| Begin (tx : nat)
| Commit (tx : nat)
| Rollback (tx : nat)
| Execute (on : Executor) (statement : string)
| Concurrently (first second : list Event).

(** The statements an event stands for, and those of a log, concurrent
    branches included. *)
Fixpoint executed (e : Event) : list (Executor * string) :=
  match e with
  | Execute on statement => [(on, statement)]
  | Concurrently first second => flat_map executed first ++ flat_map executed second
  | _ => []
  end.

Definition statements (log : list Event) : list (Executor * string) :=
  flat_map executed log.

(** The log lines of a log, concurrent branches included. *)
Fixpoint logged (e : Event) : list (LogLevel * string) :=
  match e with
  | Logged level message => [(level, message)]
  | Concurrently first second => flat_map logged first ++ flat_map logged second
  | _ => []
  end.

Definition log_lines (log : list Event) : list (LogLevel * string) :=
  flat_map logged log.

Global Instance LogLevel_eq_dec : EqDecision LogLevel.
Proof. solve_decision. Defined.

Global Instance Executor_eq_dec : EqDecision Executor.
Proof. solve_decision. Defined.

(** The catalog as the read-only queries of the repository see it: each
    field is the [rows] of one query, by its parameters. *)
Record Catalog := {
  pg_available_extensions : string → list ExtensionVersion;
  pg_stat_all_indexes : string → list (option string);
  pg_attribute : string → string → list Z;
  pg_indexes : list IndexRow
}.

Module Effect.

Record Store := { events : list Event; next_tx : nat }.

Definition M (A : Type) : Type := Store → Result A * Store.

Definition ret {A} (a : A) : M A := λ s, (Ok a, s).

Definition throw {A} (e : Error) : M A := λ s, (Err e, s).

Definition bind {A B} (m : M A) (k : A → M B) : M B :=
  λ s, match m s with
       | (Ok a, s') => k a s'
       | (Err e, s') => (Err e, s')
       end.

Definition lift {A} (r : Result A) : M A := λ s, (r, s).

Definition emit (e : Event) : M unit :=
  λ s, (Ok tt, {| events := events s ++ [e]; next_tx := next_tx s |}).

(** [db.transaction().execute(body)]: commit when [body] returns, roll back
    and rethrow when it throws. *)
Definition transaction {A} (body : nat → M A) : M A :=
  λ s,
    let tx := next_tx s in
    let s1 := {| events := events s ++ [Begin tx]; next_tx := S tx |} in
    match body tx s1 with
    | (Ok a, s2) =>
        (Ok a, {| events := events s2 ++ [Commit tx]; next_tx := next_tx s2 |})
    | (Err e, s2) =>
        (Err e, {| events := events s2 ++ [Rollback tx]; next_tx := next_tx s2 |})
    end.

(** [Promise.all([m1, m2])]: both calls are started; the events of each are
    kept apart, their interleaving being the scheduler's.  It rejects when
    one of them does, with the failure that comes first: when both fail,
    [second_first] tells that the second call's failure came first.  The
    log keeps the events of each call whole, up to the end of that call:
    [Promise.all] itself rejects as soon as one call does, and what the
    other call still sends comes after the caller has seen the failure.
    So, for a run that fails, the log tells which events each call has in
    the end and not where they stand with respect to the events that
    follow. *)
Definition promise_all2 {A B} (second_first : bool) (m1 : M A) (m2 : M B)
  : M (A * B) :=
  λ s,
    let '(r1, s1) := m1 {| events := []; next_tx := next_tx s |} in
    let '(r2, s2) := m2 {| events := []; next_tx := next_tx s1 |} in
    let s' := {| events := events s ++ [Concurrently (events s1) (events s2)];
                 next_tx := next_tx s2 |} in
    match r1, r2 with
    | Ok a, Ok b => (Ok (a, b), s')
    | Err e1, Err e2 => (Err (if second_first then e2 else e1), s')
    | Err e, Ok _ => (Err e, s')
    | Ok _, Err e => (Err e, s')
    end.

Definition start : Store := {| events := []; next_tx := 0 |}.

(** Run from the empty log. *)
Definition run {A} (m : M A) : Result A * list Event :=
  let '(r, s) := m start in (r, events s).

End Effect.

Notation "'let!' x ':=' m 'in' k" := (Effect.bind m (λ x, k))
  (at level 10, x name, m at level 100, k at level 200, only parsing).

(** Modelled from the spec: [isValidInteger], which the repository imports
    from [src/validation].  The value must be an integer within the
    inclusive range; [undefined] (no row) is not one.  The column read is an
    [int4], so a present value is an integer. *)
Definition isValidInteger (value : option Z) (min max : Z) : bool :=
  match value with
  | None => false
  | Some v => bool_decide (min ≤ v)%Z && bool_decide (v ≤ max)%Z
  end.

(** JavaScript truthiness of a [string | null | undefined]. *)
Definition truthy (v : option string) : option string :=
  match v with
  | Some s => if bool_decide (s = "") then None else Some s
  | None => None
  end.

(** [sql.lit] on a string: a quoted literal, quotes inside doubled. *)
Fixpoint sql_escape (s : string) : string :=
  match s with
  | EmptyString => EmptyString
  | String c rest =>
      if bool_decide (c = "'"%char) then String c (String c (sql_escape rest))
      else String c (sql_escape rest)
  end.

Definition sql_lit (s : string) : string := "'" +:+ sql_escape s +:+ "'".

Section Repository.

(** The string values of the enums (declared in [src/enum]) and
    [semver.diff] (a library) are parameters. *)
Variable extension_value : DatabaseExtension → string.
Variable index_value : VectorIndex → string.
Variable semver_diff : string → string → Result (option ReleaseType).

(** Which of two failing [reindex] calls started together fails first is
    the scheduler's choice. *)
Variable face_fails_first : bool.

(** The fields of [DatabaseRepository] the methods read. *)
Record DatabaseRepository := {
  vectorExtension : DatabaseExtension;
  db : Catalog
}.

Variable this : DatabaseRepository.

Import Effect.

Definition log (message : string) : M unit := emit (Logged LogInfo message).
Definition warn (message : string) : M unit := emit (Logged LogWarn message).
Definition execute (on : Executor) (statement : string) : M unit :=
  emit (Execute on statement).

(** [rows[0] ?? { availableVersion: null, installedVersion: null }] *)
Definition getExtensionVersion (extension : DatabaseExtension) : ExtensionVersion :=
  match pg_available_extensions (db this) (extension_value extension) with
  | row :: _ => row
  | [] => {| availableVersion := None; installedVersion := None |}
  end.

(** [rows[0]?.relname] *)
Definition getIndexTable (index : VectorIndex) : option string :=
  match pg_stat_all_indexes (db this) (index_value index) with
  | row :: _ => row
  | [] => None
  end.

Definition getDimSize (table : string) : Result Z :=
  let dimSize := head (pg_attribute (db this) table "embedding") in
  if isValidInteger dimSize 1 (2 ^ 16)
  then match dimSize with Some d => Ok d | None => Err CouldNotRetrieveDimensionSize end
  else Err CouldNotRetrieveDimensionSize.

Definition setSearchPath (tx : nat) : M unit :=
  execute (OnTx tx)
    ("SET search_path TO " +:+ String (Ascii.ascii_of_nat 34) "$user"
     +:+ String (Ascii.ascii_of_nat 34) ", public, vectors").

(** The final retype statement of [reindex]. *)
Definition retype_statement (table schema : string) (dimSize : Z) : string :=
  Str.nl +:+
  "        ALTER TABLE " +:+ table +:+ Str.nl +:+
  "        ALTER COLUMN embedding" +:+ Str.nl +:+
  "        SET DATA TYPE " +:+ schema +:+ "vector(" +:+ pretty dimSize +:+ ")".

Definition reindex (index : VectorIndex) : M unit :=
  let! _ := log ("Reindexing " +:+ index_value index) in
  match truthy (getIndexTable index) with
  | None => warn ("Could not find table for index " +:+ index_value index)
  | Some table =>
      let! dimSize := lift (getDimSize table) in
      transaction (λ tx,
        let! _ := execute OnDb ("DROP INDEX IF EXISTS " +:+ index_value index) in
        let! _ := execute (OnTx tx)
                    ("ALTER TABLE " +:+ table +:+
                     " ALTER COLUMN embedding SET DATA TYPE real[]") in
        let schema :=
          if bool_decide (vectorExtension this = VECTORS) then "vectors." else "" in
        let! _ := execute (OnTx tx) (retype_statement table schema dimSize) in
        let! statement :=
          lift (createVectorIndex (vectorExtension this) table (index_value index)) in
        execute (OnTx tx) statement)
  end.

(** [diff && ['minor', 'major'].includes(diff)] *)
Definition minor_or_major (diff : option ReleaseType) : bool :=
  match diff with
  | Some minor | Some major => true
  | _ => false
  end.

Definition updateVectorExtension
    (extension : DatabaseExtension) (targetVersion : option string)
  : M VectorUpdateResult :=
  let info := getExtensionVersion extension in
  match truthy (installedVersion info) with
  | None => throw (ExtensionNotInstalled extension)
  | Some installedVersion =>
      match truthy (availableVersion info) with
      | None => throw (NoAvailableVersion extension)
      | Some availableVersion =>
          let targetVersion := default availableVersion targetVersion in
          let isVectors := bool_decide (extension = VECTORS) in
          let! restartRequired :=
            transaction (λ tx,
              let! _ := setSearchPath tx in
              let! _ := execute (OnTx tx)
                          ("ALTER EXTENSION " +:+ extension_value extension +:+
                           " UPDATE TO " +:+ sql_lit targetVersion) in
              let! diff := lift (semver_diff installedVersion targetVersion) in
              if isVectors && minor_or_major diff
              then
                let! _ := execute (OnTx tx) "SELECT pgvectors_upgrade()" in
                ret true
              else
                let! _ := promise_all2 face_fails_first (reindex CLIP) (reindex FACE) in
                ret false) in
          ret {| restartRequired := restartRequired |}
      end
  end.

(** The statements every upgrade that passes its preconditions starts with. *)
Definition upgrade_prologue (extension : DatabaseExtension) (target : string)
  : list Event :=
  [Begin 0;
   Execute (OnTx 0)
     ("SET search_path TO " +:+ String (Ascii.ascii_of_nat 34) "$user"
      +:+ String (Ascii.ascii_of_nat 34) ", public, vectors");
   Execute (OnTx 0)
     ("ALTER EXTENSION " +:+ extension_value extension +:+
      " UPDATE TO " +:+ sql_lit target)].

End Repository.

(** ** A sample deployment for the worked examples

    The theorems below hold for every choice of the parameters of
    [Repository]; the examples run on this one. *)

Module Sample.

(** The index names are the ones the migrations create; the extension
    names are the engine's. *)
Definition extension_value (extension : DatabaseExtension) : string :=
  match extension with
  | VECTORCHORD => "vchord"
  | VECTORS => "vectors"
  | VECTOR => "vector"
  | OtherExtension name => name
  end.

Definition index_value (index : VectorIndex) : string :=
  match index with
  | CLIP => "clip_index"
  | FACE => "face_index"
  end.

Definition digit (c : ascii) : option N :=
  let n := N_of_ascii c in
  if bool_decide (48 ≤ n ≤ 57)%N then Some (n - 48)%N else None.

(** A run of decimal digits up to the next dot. *)
Fixpoint number (s : string) (acc : option N) : option (N * option string) :=
  match s with
  | EmptyString => n ← acc; Some (n, None)
  | String c rest =>
      if bool_decide (c = "."%char) then n ← acc; Some (n, Some rest)
      else d ← digit c; number rest (Some (default 0 acc * 10 + d)%N)
  end.

Definition parse (version : string) : option (N * N * N) :=
  '(x, s1) ← number version None; s1 ← s1;
  '(y, s2) ← number s1 None; s2 ← s2;
  '(z, s3) ← number s2 None;
  match s3 with None => Some (x, y, z) | Some _ => None end.

(** [semver.diff] on plain [MAJOR.MINOR.PATCH] versions; it throws on
    what it cannot parse. *)
Definition semver_diff (version1 version2 : string) : Result (option ReleaseType) :=
  match parse version1, parse version2 with
  | Some (x1, y1, z1), Some (x2, y2, z2) =>
      if bool_decide (x1 ≠ x2) then Ok (Some major)
      else if bool_decide (y1 ≠ y2) then Ok (Some minor)
      else if bool_decide (z1 ≠ z2) then Ok (Some patch)
      else Ok None
  | _, _ => Err (Foreign "Invalid Version")
  end.

(** A catalog where [extension] is installed at [installed] with
    [available] on offer, both indexes are live on their tables, and the
    attribute query for an embedding column answers [dimsize]. *)
Definition catalog
    (extension installed available : string) (dimsize : list Z) : Catalog := {|
  pg_available_extensions := λ name,
    if bool_decide (name = extension)
    then [{| availableVersion := Some available; installedVersion := Some installed |}]
    else [];
  pg_stat_all_indexes := λ index,
    if bool_decide (index = "clip_index") then [Some "smart_search"]
    else if bool_decide (index = "face_index") then [Some "face_search"]
    else [];
  pg_attribute := λ table column,
    if bool_decide (column = "embedding") then dimsize else [];
  pg_indexes := []
|}.

(** A catalog that knows no extension and no index. *)
Definition bare_catalog : Catalog := {|
  pg_available_extensions := λ _, [];
  pg_stat_all_indexes := λ _, [];
  pg_attribute := λ _ _, [];
  pg_indexes := []
|}.

Definition reindex := reindex index_value.
Definition updateVectorExtension :=
  updateVectorExtension extension_value index_value semver_diff false.

End Sample.

(** ** The two-tier lock

    The in-process mutex is [async-lock]'s table of busy keys, one table per
    server process.  The advisory locks are the engine's: one table for all
    processes, a lock belonging to the session (connection) that took it,
    and taken again by the same session it stacks.  A connection is checked
    out of its process's pool by one user at a time; its session outlives
    the checkout. *)

Definition Pid := nat.
Definition Conn := (Pid * nat)%type.

Record World := {
  busy : gset (Pid * string);
  checked_out : gset Conn;
  advisory : gmap Z (Conn * positive)
}.

Definition idle_world : World :=
  {| busy := ∅; checked_out := ∅; advisory := ∅ |}.

Module Pg.

(** [pg_advisory_lock(id)] on session [c]: [None] while another session
    holds the lock (the statement does not return). *)
Definition advisory_lock (id : Z) (c : Conn) (w : World) : option World :=
  match advisory w !! id with
  | None =>
      Some {| busy := busy w; checked_out := checked_out w;
              advisory := <[id := (c, 1%positive)]> (advisory w) |}
  | Some (holder, n) =>
      if decide (holder = c)
      then Some {| busy := busy w; checked_out := checked_out w;
                   advisory := <[id := (c, Pos.succ n)]> (advisory w) |}
      else None
  end.

(** [pg_try_advisory_lock(id)]: as above, but it answers [false] instead of
    waiting. *)
Definition try_advisory_lock (id : Z) (c : Conn) (w : World) : bool * World :=
  match advisory_lock id c w with
  | Some w' => (true, w')
  | None => (false, w)
  end.

(** [pg_advisory_unlock(id)]: one level of the session's hold is given
    back; [false] (and a warning) when the session holds none. *)
Definition advisory_unlock (id : Z) (c : Conn) (w : World) : bool * World :=
  match advisory w !! id with
  | Some (holder, n) =>
      if decide (holder = c)
      then (true,
            {| busy := busy w; checked_out := checked_out w;
               advisory := if decide (n = 1%positive) then delete id (advisory w)
                           else <[id := (c, Pos.pred n)]> (advisory w) |})
      else (false, w)
  | None => (false, w)
  end.

End Pg.

(** How many times session [c] holds the advisory lock [id]. *)
Definition holds (w : World) (id : Z) (c : Conn) : nat :=
  match advisory w !! id with
  | Some (holder, n) => if decide (holder = c) then Pos.to_nat n else 0
  | None => 0
  end.

(** The updates of the mutex table and of the pool. *)
Definition take_key (pid : Pid) (key : string) (w : World) : World :=
  {| busy := {[(pid, key)]} ∪ busy w;
     checked_out := checked_out w; advisory := advisory w |}.

Definition free_key (pid : Pid) (key : string) (w : World) : World :=
  {| busy := busy w ∖ {[(pid, key)]};
     checked_out := checked_out w; advisory := advisory w |}.

Definition check_out (c : Conn) (w : World) : World :=
  {| busy := busy w; checked_out := {[c]} ∪ checked_out w;
     advisory := advisory w |}.

Definition check_in (c : Conn) (w : World) : World :=
  {| busy := busy w; checked_out := checked_out w ∖ {[c]};
     advisory := advisory w |}.

(** What a call does when nothing else runs in between: it exits, by
    returning or by throwing, or it is left waiting (for the mutex, for the
    connection, for the advisory lock). *)
Inductive Outcome (A : Type) :=
| Exited (result : Result A) (w : World)
| Waiting.
Arguments Exited {A} result w.
Arguments Waiting {A}.

Module Seq.

Definition P (A : Type) : Type := World → Outcome A.

Definition ret {A} (a : A) : P A := λ w, Exited (Ok a) w.

Definition bind {A B} (m : P A) (k : A → P B) : P B :=
  λ w, match m w with
       | Exited (Ok a) w' => k a w'
       | Exited (Err e) w' => Exited (Err e) w'
       | Waiting => Waiting
       end.

(** [try { body } finally { cleanup }]: the cleanup runs on both exits; an
    exception of the cleanup replaces the outcome of the body. *)
Definition try_finally {A} (body : P A) (cleanup : P unit) : P A :=
  λ w, match body w with
       | Exited r w1 =>
           match cleanup w1 with
           | Exited (Ok _) w2 => Exited r w2
           | Exited (Err e) w2 => Exited (Err e) w2
           | Waiting => Waiting
           end
       | Waiting => Waiting
       end.

(** [asyncLock.acquire(key, fn)] in process [pid]: [fn] runs once the key
    is not busy, and the key is freed when [fn] settles. *)
Definition asyncLock_acquire {A} (pid : Pid) (key : string) (fn : P A) : P A :=
  λ w,
    if decide ((pid, key) ∈ busy w) then Waiting
    else
      match fn (take_key pid key w) with
      | Exited r w1 => Exited r (free_key pid key w1)
      | Waiting => Waiting
      end.

(** [asyncLock.isBusy(key)] *)
Definition asyncLock_isBusy (pid : Pid) (key : string) (w : World) : bool :=
  bool_decide ((pid, key) ∈ busy w).

(** [db.connection().execute(fn)]: the pool hands out connection [c] once
    nobody uses it, and takes it back when [fn] settles. *)
Definition connection_execute {A} (c : Conn) (fn : Conn → P A) : P A :=
  λ w,
    if decide (c ∈ checked_out w) then Waiting
    else
      match fn c (check_out c w) with
      | Exited r w1 => Exited r (check_in c w1)
      | Waiting => Waiting
      end.

End Seq.

Section Locks.

(** [DatabaseLock] is a numeric enum of [src/enum]: a member is used as
    the advisory-lock key ([lock_value]) and, through the reverse mapping
    [DatabaseLock[lock]], as the mutex key ([lock_name]). *)
Context {DatabaseLock : Type}.
Variable lock_value : DatabaseLock → Z.
Variable lock_name : DatabaseLock → string.

(** The process the repository object lives in, and the connection its
    pool hands out next. *)
Variable pid : Pid.
Variable slot : nat.

Import Seq.

(** In this section the engine accepts the lock statements; [Fallible]
    below has the same calls with statements it rejects. *)
Definition acquireLock (lock : DatabaseLock) (connection : Conn) : P unit :=
  λ w, match Pg.advisory_lock (lock_value lock) connection w with
       | Some w' => Exited (Ok tt) w'
       | None => Waiting
       end.

Definition acquireTryLock (lock : DatabaseLock) (connection : Conn) : P bool :=
  λ w, let '(obtained, w') := Pg.try_advisory_lock (lock_value lock) connection w in
       Exited (Ok obtained) w'.

Definition releaseLock (lock : DatabaseLock) (connection : Conn) : P unit :=
  λ w, Exited (Ok tt) (Pg.advisory_unlock (lock_value lock) connection w).2.

Definition withLock {R} (lock : DatabaseLock) (callback : P R) : P R :=
  asyncLock_acquire pid (lock_name lock)
    (connection_execute (pid, slot) (λ connection,
       try_finally
         (bind (acquireLock lock connection) (λ _, callback))
         (releaseLock lock connection))).

Definition tryLock (lock : DatabaseLock) : P bool :=
  connection_execute (pid, slot) (λ connection, acquireTryLock lock connection).

Definition isBusy (lock : DatabaseLock) (w : World) : bool :=
  asyncLock_isBusy pid (lock_name lock) w.

Definition wait (lock : DatabaseLock) : P unit :=
  asyncLock_acquire pid (lock_name lock) (ret tt).

End Locks.

(** ** Lock statements the engine rejects

    Above, the engine accepts the two lock statements of [withLock].  Here
    it may reject either (a lost connection, a statement timeout): the
    [execute] of the statement throws, and the lock table is as it was. *)

Record Rejections := {
  lock_rejected : option Error;
  unlock_rejected : option Error
}.

Definition accepted : Rejections :=
  {| lock_rejected := None; unlock_rejected := None |}.

Module Fallible.

Section Locks.

Context {DatabaseLock : Type}.
Variable rejections : Rejections.
Variable lock_value : DatabaseLock → Z.
Variable lock_name : DatabaseLock → string.
Variable pid : Pid.
Variable slot : nat.

Import Seq.

Definition acquireLock (lock : DatabaseLock) (connection : Conn) : P unit :=
  λ w, match lock_rejected rejections with
       | Some e => Exited (Err e) w
       | None =>
           match Pg.advisory_lock (lock_value lock) connection w with
           | Some w' => Exited (Ok tt) w'
           | None => Waiting
           end
       end.

Definition releaseLock (lock : DatabaseLock) (connection : Conn) : P unit :=
  λ w, match unlock_rejected rejections with
       | Some e => Exited (Err e) w
       | None => Exited (Ok tt) (Pg.advisory_unlock (lock_value lock) connection w).2
       end.

(** The [try] holds the acquisition too: when it throws, the callback is
    skipped and the [finally] still sends the unlock. *)
Definition withLock {R} (lock : DatabaseLock) (callback : P R) : P R :=
  asyncLock_acquire pid (lock_name lock)
    (connection_execute (pid, slot) (λ connection,
       try_finally
         (bind (acquireLock lock connection) (λ _, callback))
         (releaseLock lock connection))).

End Locks.

End Fallible.

(** ** Calls running side by side

    Every call of [withLock], [tryLock] and [wait], in any process, is a
    task that moves from one suspension point of the source to the next;
    between two moves of a task any other task may move.  A callback is
    opaque: it settles at some point with a value or a failure. *)

Section Interleaving.

Variables DatabaseLock R : Type.
Variable lock_value : DatabaseLock → Z.
Variable lock_name : DatabaseLock → string.

Inductive Call :=
| WithLock (lock : DatabaseLock)
| TryLock (lock : DatabaseLock)
| WaitFor (lock : DatabaseLock).

Definition lock_of (call : Call) : DatabaseLock :=
  match call with WithLock l | TryLock l | WaitFor l => l end.

(** Where a task stands. *)
Inductive Pc :=
| Called
| InMutex
| Connected (c : Conn)
| InCallback (c : Conn)
| InFinally (c : Conn) (r : Result R)
| Unlocked (c : Conn) (r : Result R)
| Disconnected (r : Result R)
| Probed (c : Conn) (obtained : bool)
| Exit (r : Result R)
| Answered (obtained : bool)
| Woken.

Record Task := { task_pid : Pid; task_call : Call; task_pc : Pc }.

Definition at_pc (t : Task) (pc : Pc) : Task :=
  {| task_pid := task_pid t; task_call := task_call t; task_pc := pc |}.

Record System := { world : World; tasks : gmap nat Task }.

Inductive Move :=
| Resume
| Connect (slot : nat)
| Settle (r : Result R).

(** One move of a task; [None] when the move is not open to it now. *)
Definition next (t : Task) (m : Move) (w : World) : option (Pc * World) :=
  let pid := task_pid t in
  let key := lock_name (lock_of (task_call t)) in
  let id := lock_value (lock_of (task_call t)) in
  match task_call t, task_pc t, m with
  | WithLock _, Called, Resume =>
      if decide ((pid, key) ∈ busy w) then None
      else Some (InMutex, take_key pid key w)
  | WithLock _, InMutex, Connect slot =>
      if decide ((pid, slot) ∈ checked_out w) then None
      else Some (Connected (pid, slot), check_out (pid, slot) w)
  | WithLock _, Connected c, Resume =>
      w' ← Pg.advisory_lock id c w; Some (InCallback c, w')
  | WithLock _, InCallback c, Settle r => Some (InFinally c r, w)
  | WithLock _, InFinally c r, Resume =>
      Some (Unlocked c r, (Pg.advisory_unlock id c w).2)
  | WithLock _, Unlocked c r, Resume => Some (Disconnected r, check_in c w)
  | WithLock _, Disconnected r, Resume => Some (Exit r, free_key pid key w)
  | TryLock _, Called, Connect slot =>
      if decide ((pid, slot) ∈ checked_out w) then None
      else Some (Connected (pid, slot), check_out (pid, slot) w)
  | TryLock _, Connected c, Resume =>
      let '(obtained, w') := Pg.try_advisory_lock id c w in
      Some (Probed c obtained, w')
  | TryLock _, Probed c obtained, Resume => Some (Answered obtained, check_in c w)
  | WaitFor _, Called, Resume =>
      if decide ((pid, key) ∈ busy w) then None
      else Some (InMutex, take_key pid key w)
  | WaitFor _, InMutex, Resume => Some (Woken, free_key pid key w)
  | _, _, _ => None
  end.

Inductive Action :=
| Invoke (tid : nat) (pid : Pid) (call : Call)
| Do (tid : nat) (m : Move).

Definition fire (a : Action) (s : System) : option System :=
  match a with
  | Invoke tid pid call =>
      match tasks s !! tid with
      | Some _ => None
      | None =>
          Some {| world := world s;
                  tasks := <[tid := {| task_pid := pid; task_call := call;
                                       task_pc := Called |}]> (tasks s) |}
      end
  | Do tid m =>
      t ← tasks s !! tid;
      '(pc, w) ← next t m (world s);
      Some {| world := w; tasks := <[tid := at_pc t pc]> (tasks s) |}
  end.

Fixpoint run (actions : list Action) (s : System) : option System :=
  match actions with
  | [] => Some s
  | a :: rest => s' ← fire a s; run rest s'
  end.

Definition boot : System := {| world := idle_world; tasks := ∅ |}.

(** The states some schedule leads to from the idle system. *)
Definition reachable (s : System) : Prop := ∃ actions, run actions boot = Some s.

(** The task holds the in-process mutex of its lock. *)
Definition in_mutex (t : Task) : bool :=
  match task_call t, task_pc t with
  | WithLock _, (InMutex | Connected _ | InCallback _ | InFinally _ _
                 | Unlocked _ _ | Disconnected _) => true
  | WaitFor _, InMutex => true
  | _, _ => false
  end.

(** The task's [withLock] callback is running. *)
Definition in_callback (t : Task) : bool :=
  match task_call t, task_pc t with
  | WithLock _, InCallback _ => true
  | _, _ => false
  end.

(** The task is past [acquireLock] and before [releaseLock]. *)
Definition past_acquisition (t : Task) : option Conn :=
  match task_call t, task_pc t with
  | WithLock _, (InCallback c | InFinally c _) => Some c
  | _, _ => None
  end.

(** The connection the task has checked out. *)
Definition connection_of (t : Task) : option Conn :=
  match task_pc t with
  | Connected c | InCallback c | InFinally c _ | Unlocked c _ | Probed c _ => Some c
  | _ => None
  end.

(** The mutex key and the advisory-lock key of the task's call. *)
Definition key_of (t : Task) : Pid * string :=
  (task_pid t, lock_name (lock_of (task_call t))).

Definition id_of (t : Task) : Z := lock_value (lock_of (task_call t)).

(** What every reachable state satisfies: a task inside the mutex has its
    key marked busy, and is the only one inside under that key; a task with
    a connection has it checked out, alone; a task past the acquisition is
    on the session that holds its advisory lock. *)
Record lock_invariant (s : System) : Prop := {
  mutex_held : ∀ tid t,
    tasks s !! tid = Some t → in_mutex t = true → key_of t ∈ busy (world s);
  mutex_single : ∀ tid1 tid2 t1 t2,
    tasks s !! tid1 = Some t1 → tasks s !! tid2 = Some t2 →
    in_mutex t1 = true → in_mutex t2 = true → key_of t1 = key_of t2 →
    tid1 = tid2;
  connection_held : ∀ tid t c,
    tasks s !! tid = Some t → connection_of t = Some c →
    c ∈ checked_out (world s);
  connection_single : ∀ tid1 tid2 t1 t2 c,
    tasks s !! tid1 = Some t1 → tasks s !! tid2 = Some t2 →
    connection_of t1 = Some c → connection_of t2 = Some c → tid1 = tid2;
  advisory_held : ∀ tid t c,
    tasks s !! tid = Some t → past_acquisition t = Some c →
    ∃ n, advisory (world s) !! id_of t = Some (c, n)
}.

End Interleaving.

Arguments WithLock {DatabaseLock} lock.
Arguments TryLock {DatabaseLock} lock.
Arguments WaitFor {DatabaseLock} lock.
Arguments lock_of {DatabaseLock} call.
Arguments Called {R}.
Arguments InMutex {R}.
Arguments Connected {R} c.
Arguments InCallback {R} c.
Arguments InFinally {R} c r.
Arguments Unlocked {R} c r.
Arguments Disconnected {R} r.
Arguments Probed {R} c obtained.
Arguments Exit {R} r.
Arguments Answered {R} obtained.
Arguments Woken {R}.
Arguments task_pid {DatabaseLock R} t.
Arguments task_call {DatabaseLock R} t.
Arguments task_pc {DatabaseLock R} t.
Arguments at_pc {DatabaseLock R} t pc.
Arguments world {DatabaseLock R} s.
Arguments tasks {DatabaseLock R} s.
Arguments Resume {R}.
Arguments Connect {R} slot.
Arguments Settle {R} r.
Arguments next {DatabaseLock R} lock_value lock_name t m w.
Arguments Invoke {DatabaseLock R} tid pid call.
Arguments Do {DatabaseLock R} tid m.
Arguments fire {DatabaseLock R} lock_value lock_name a s.
Arguments run {DatabaseLock R} lock_value lock_name actions s.
Arguments boot {DatabaseLock R}.
Arguments reachable {DatabaseLock R} lock_value lock_name s.
Arguments in_mutex {DatabaseLock R} t.
Arguments in_callback {DatabaseLock R} t.
Arguments past_acquisition {DatabaseLock R} t.
Arguments connection_of {DatabaseLock R} t.
Arguments key_of {DatabaseLock R} lock_name t.
Arguments id_of {DatabaseLock R} lock_value t.
Arguments lock_invariant {DatabaseLock R} lock_value lock_name s.
Arguments mutex_held {DatabaseLock R lock_value lock_name s}.
Arguments mutex_single {DatabaseLock R lock_value lock_name s}.
Arguments connection_held {DatabaseLock R lock_value lock_name s}.
Arguments connection_single {DatabaseLock R lock_value lock_name s}.
Arguments advisory_held {DatabaseLock R lock_value lock_name s}.

(** ** A sample lock enumeration for the worked examples *)

Module SampleLocks.

(** An instance of the enum [DatabaseLock] (the repository declares it in
    [src/enum]): a small closed enumeration, each member with a string key
    for the mutex and a stable integer for the advisory lock, no two members
    sharing either. *)
Inductive NamedLock := Migrations | CLIPDimSize | Library.

Definition lock_value (lock : NamedLock) : Z :=
  match lock with
  | Migrations => 200
  | CLIPDimSize => 512
  | Library => 1337
  end.

Definition lock_name (lock : NamedLock) : string :=
  match lock with
  | Migrations => "Migrations"
  | CLIPDimSize => "CLIPDimSize"
  | Library => "Library"
  end.

End SampleLocks.

(** ** Migrations

    A migration talks to the database through [queryRunner.query] only: the
    texts it sends are kept in order, reads included.  What a read answers
    comes from a snapshot of the catalog. *)

Module Runner.

(** A program that leaves a log of [E] behind and returns or throws. *)
Definition Q (E A : Type) : Type := list E → Result A * list E.

Definition ret {E A} (a : A) : Q E A := λ sent, (Ok a, sent).

Definition bind {E A B} (m : Q E A) (k : A → Q E B) : Q E B :=
  λ sent, match m sent with
          | (Ok a, sent') => k a sent'
          | (Err e, sent') => (Err e, sent')
          end.

Definition lift {E A} (r : Result A) : Q E A := λ sent, (r, sent).

(** A call that is recorded as [e] and settles as [outcome]. *)
Definition call {E A} (e : E) (outcome : Result A) : Q E A :=
  λ sent, (outcome, sent ++ [e]).

(** [await queryRunner.query(text)] for a statement, which the engine
    accepts. *)
Definition query (text : string) : Q string unit := call text (Ok tt).

(** [await queryRunner.query(text)] for a read answering [rows]. *)
Definition query_rows {A} (text : string) (rows : A) : Q string A :=
  call text (Ok rows).

(** The log from the start, and the outcome. *)
Definition run {E A} (m : Q E A) : Result A * list E := m [].

End Runner.

Notation "'let?' x ':=' m 'in' k" := (Runner.bind m (λ x, k))
  (at level 10, x name, m at level 100, k at level 200, only parsing).

Module Migrations.

Definition dq : string := String (Ascii.ascii_of_nat 34) "".

Definition set_search_path : string :=
  "SET search_path TO " +:+ dq +:+ "$user" +:+ dq +:+ ", public, vectors".

Definition set_compatibility : string := "SET vectors.pgvector_compatibility=on".

Section WithExtension.

(** [new ConfigRepository().getEnv().database.vectorExtension], read when
    the migration module is loaded. *)
Variable vectorExtension : DatabaseExtension.

(** What [information_schema.columns] lists for a table.  The two reads of
    [AddFaceSearchRelation] are on different tables, and nothing sent
    before the second touches the table it asks about. *)
Variable columns : string → list string.

Import Runner.

(** [1700714033632-AddFaceEmbeddingIndex.ts] *)
Definition AddFaceEmbeddingIndex_up : Q string unit :=
  let? _ := (if bool_decide (vectorExtension = VECTORS)
             then query set_compatibility else ret tt) in
  let? _ := query set_search_path in
  let? statement := lift (createVectorIndex vectorExtension "asset_faces" "face_index") in
  query statement.

Definition AddFaceEmbeddingIndex_down : Q string unit :=
  query "DROP INDEX IF EXISTS face_index".

(** [1718486162779-AddFaceSearchRelation.ts] *)
Definition hasEmbeddings (tableName : string) : Q string bool :=
  let? rows :=
    query_rows
      ("SELECT column_name as name" +:+ Str.nl +:+
       "        FROM information_schema.columns" +:+ Str.nl +:+
       "        WHERE table_name = '" +:+ tableName +:+ "'")
      (columns tableName) in
  ret (existsb (λ name, bool_decide (name = "embedding")) rows).

Definition truncate_smart_search : string := "TRUNCATE smart_search".

Definition copy_face_embeddings : string :=
  Str.nl +:+
  "        INSERT INTO face_search(" +:+ dq +:+ "faceId" +:+ dq +:+ ", embedding)" +:+ Str.nl +:+
  "        SELECT id, embedding" +:+ Str.nl +:+
  "        FROM asset_faces faces".

Definition drop_face_embeddings : string :=
  "ALTER TABLE asset_faces DROP COLUMN IF EXISTS embedding".

Definition AddFaceSearchRelation_up : Q string unit :=
  let? _ := (if bool_decide (vectorExtension = VECTORS)
             then let? _ := query set_search_path in query set_compatibility
             else ret tt) in
  let? hasAssetEmbeddings := hasEmbeddings "smart_search" in
  let? _ := (if negb hasAssetEmbeddings
             then
               let? _ := query truncate_smart_search in
               query "ALTER TABLE smart_search ADD COLUMN IF NOT EXISTS embedding vector(512) NOT NULL"
             else ret tt) in
  let? _ := query
              (Str.nl +:+
               "      CREATE TABLE face_search (" +:+ Str.nl +:+
               "      " +:+ dq +:+ "faceId" +:+ dq +:+
               "  uuid PRIMARY KEY REFERENCES asset_faces(id) ON DELETE CASCADE," +:+ Str.nl +:+
               "      embedding  vector(512) NOT NULL )") in
  let? _ := query "ALTER TABLE face_search ALTER COLUMN embedding SET STORAGE EXTERNAL" in
  let? _ := query "ALTER TABLE smart_search ALTER COLUMN embedding SET STORAGE EXTERNAL" in
  let? hasFaceEmbeddings := hasEmbeddings "asset_faces" in
  let? _ := (if hasFaceEmbeddings then query copy_face_embeddings else ret tt) in
  let? _ := query drop_face_embeddings in
  let? _ := query "ALTER TABLE face_search ALTER COLUMN embedding SET DATA TYPE real[]" in
  let? _ := query "ALTER TABLE face_search ALTER COLUMN embedding SET DATA TYPE vector(512)" in
  let? clip := lift (createVectorIndex vectorExtension "smart_search" "clip_index") in
  let? _ := query clip in
  let? face := lift (createVectorIndex vectorExtension "face_search" "face_index") in
  query face.

Definition copy_back_face_embeddings : string :=
  Str.nl +:+
  "      UPDATE asset_faces" +:+ Str.nl +:+
  "      SET embedding = fs.embedding" +:+ Str.nl +:+
  "      FROM face_search fs" +:+ Str.nl +:+
  "      WHERE id = fs." +:+ dq +:+ "faceId" +:+ dq.

Definition AddFaceSearchRelation_down : Q string unit :=
  let? _ := (if bool_decide (vectorExtension = VECTORS)
             then let? _ := query set_search_path in query set_compatibility
             else ret tt) in
  let? _ := query ("ALTER TABLE asset_faces ADD COLUMN " +:+ dq +:+ "embedding" +:+ dq
                   +:+ " vector(512)") in
  let? _ := query "ALTER TABLE face_search ALTER COLUMN embedding SET STORAGE DEFAULT" in
  let? _ := query "ALTER TABLE smart_search ALTER COLUMN embedding SET STORAGE DEFAULT" in
  let? _ := query copy_back_face_embeddings in
  let? _ := query "DROP TABLE face_search" in
  let? statement := lift (createVectorIndex vectorExtension "asset_faces" "face_index") in
  query statement.

End WithExtension.

Section WithDetection.

(** [getVectorExtension(queryRunner)], which the migration imports from the
    repository module: whatever it sends and answers. *)
Variable getVectorExtension : Runner.Q string DatabaseExtension.

Import Runner.

(** [1700713994428-AddCLIPEmbeddingIndex.ts] *)
Definition AddCLIPEmbeddingIndex_up : Q string unit :=
  let? vectorExtension := getVectorExtension in
  let? _ := (if bool_decide (vectorExtension = VECTORS)
             then query set_compatibility else ret tt) in
  let? _ := query set_search_path in
  let? statement := lift (createVectorIndex vectorExtension "smart_search" "clip_index") in
  query statement.

Definition AddCLIPEmbeddingIndex_down : Q string unit :=
  query "DROP INDEX IF EXISTS clip_index".

End WithDetection.

(** [a] is sent before [b]. *)
Definition sent_before (a b : string) (sent : list string) : Prop :=
  ∃ front middle back, sent = front ++ a :: middle ++ b :: back.

End Migrations.

(** ** [runMigrations]

    The data source is typeorm's: the calls made on it are kept in a log
    with the line the repository logs, and each call returns or throws as
    the engine and the migrations make it. *)

Inductive TransactionMode := TransactionAll | TransactionNone | TransactionEach.

(** [options?: { transaction?: 'all' | 'none' | 'each' }] *)
Definition MigrationOptions : Type := option (option TransactionMode).

Inductive DataSourceEvent :=
| LoggedLine (message : string)
| Initialized
| MigrationsRun (options : MigrationOptions)
| Destroyed.

Section RunMigrations.

Variable initialize_outcome : Result unit.
Variable migrations_outcome : MigrationOptions → Result unit.
Variable destroy_outcome : Result unit.

Definition runMigrations (options : MigrationOptions)
  : Runner.Q DataSourceEvent unit :=
  let? _ := Runner.call (LoggedLine "Running migrations, this may take a while")
              (Ok tt) in
  let? _ := Runner.call Initialized initialize_outcome in
  let? _ := Runner.call (MigrationsRun options) (migrations_outcome options) in
  Runner.call Destroyed destroy_outcome.

End RunMigrations.

(** ** More on the calls side by side *)

Section Accounting.

Variables DatabaseLock R : Type.
Variable lock_value : DatabaseLock → Z.
Variable lock_name : DatabaseLock → string.

(** The call has returned to its caller. *)
Definition finished (t : Task DatabaseLock R) : bool :=
  match task_pc t with
  | Exit _ | Answered _ | Woken => true
  | _ => false
  end.

Definition is_tryLock (t : Task DatabaseLock R) : bool :=
  match task_call t with TryLock _ => true | _ => false end.

(** Every busy key and every checked-out connection is some task's. *)
Record accounted (s : System DatabaseLock R) : Prop := {
  busy_owned : ∀ k,
    k ∈ busy (world s) →
    ∃ tid t, tasks s !! tid = Some t ∧ in_mutex t = true ∧ key_of lock_name t = k;
  checked_out_owned : ∀ c,
    c ∈ checked_out (world s) →
    ∃ tid t, tasks s !! tid = Some t ∧ connection_of t = Some c
}.

(** Every advisory lock is held once, by the session of a call that is past
    its acquisition. *)
Definition advisory_owned (s : System DatabaseLock R) : Prop :=
  ∀ id c n,
    advisory (world s) !! id = Some (c, n) →
    n = 1%positive
    ∧ ∃ tid t, tasks s !! tid = Some t ∧ past_acquisition t = Some c
               ∧ id_of lock_value t = id.

(** No call of [tryLock] was ever made. *)
Definition no_tryLock (s : System DatabaseLock R) : Prop :=
  ∀ tid t, tasks s !! tid = Some t → is_tryLock t = false.

End Accounting.

Arguments finished {DatabaseLock R} t.
Arguments is_tryLock {DatabaseLock R} t.
Arguments accounted {DatabaseLock R} lock_name s.
Arguments busy_owned {DatabaseLock R lock_name s}.
Arguments checked_out_owned {DatabaseLock R lock_name s}.
Arguments advisory_owned {DatabaseLock R} lock_value s.
Arguments no_tryLock {DatabaseLock R} s.

(** * Properties *)

(** ** Strings *)

Module StrFacts.

Lemma append_nil (b : string) : "" +:+ b = b.
Proof. reflexivity. Qed.

Lemma append_cons (x : ascii) (a b : string) :
  String x a +:+ b = String x (a +:+ b).
Proof. reflexivity. Qed.

Lemma append_assoc (a b c : string) : (a +:+ b) +:+ c = a +:+ (b +:+ c).
Proof.
  induction a as [|x a IH]; [done |].
  rewrite !append_cons. by f_equal.
Qed.

Lemma prefix_append (needle rest : string) :
  String.prefix needle (needle +:+ rest) = true.
Proof.
  induction needle as [|x needle IH].
  - by destruct rest.
  - rewrite append_cons. simpl.
    destruct (Ascii.ascii_dec x x); [apply IH | done].
Qed.

Lemma includes_prefix (hay needle : string) :
  String.prefix needle hay = true → Str.includes hay needle = true.
Proof. destruct hay; simpl; intros ->; done. Qed.

Lemma includes_append (front needle rest : string) :
  Str.includes (front +:+ needle +:+ rest) needle = true.
Proof.
  induction front as [|x front IH].
  - rewrite append_nil. apply includes_prefix, prefix_append.
  - rewrite append_cons. simpl. rewrite IH. apply orb_true_r.
Qed.

Lemma toLowerCase_append (a b : string) :
  Str.toLowerCase (a +:+ b) = Str.toLowerCase a +:+ Str.toLowerCase b.
Proof.
  induction a as [|x a IH]; [done |].
  rewrite append_cons. simpl. rewrite append_cons. by f_equal.
Qed.

Lemma includes_after (front s needle : string) :
  Str.includes s needle = true → Str.includes (front +:+ s) needle = true.
Proof.
  intros H. induction front as [|x front IH]; [done |].
  rewrite append_cons. simpl. rewrite IH. apply orb_true_r.
Qed.

Lemma ends_with_after (front s suffix : string) :
  Str.ends_with s suffix → Str.ends_with (front +:+ s) suffix.
Proof.
  intros [mid ->]. exists (front +:+ mid). by rewrite append_assoc.
Qed.

Lemma ends_with_refl (s : string) : Str.ends_with s s.
Proof. by exists "". Qed.

End StrFacts.

(** Skip the leading pieces of a concatenation until the rest, a literal,
    decides the question. *)
Ltac find_in_tail :=
  first [ by vm_compute | apply StrFacts.includes_after; find_in_tail ].

Ltac at_the_end :=
  first [ apply StrFacts.ends_with_refl
        | apply StrFacts.ends_with_after; at_the_end ].

(** ** Index statements *)

(** C5: [createVectorIndex] raises the configuration error for every
    unsupported kind; for vectorchord the statement contains [vchordrq], for
    vectors it contains [vectors] and ends with the option block fixing
    [m = 16] and [ef_construction = 300], and for vector it contains [hnsw]
    and ends right after the access method, with no option block. *)
Theorem createVectorIndex_by_kind (tableName indexName : string) :
  (∀ name, createVectorIndex (OtherExtension name) tableName indexName
           = Err (UnsupportedVectorExtension (OtherExtension name)))
  ∧ (∃ s, createVectorIndex VECTORCHORD tableName indexName = Ok s
          ∧ Str.includes s "USING vchordrq" = true)
  ∧ (∃ s, createVectorIndex VECTORS tableName indexName = Ok s
          ∧ Str.includes s "USING vectors" = true
          ∧ Str.includes s "m = 16" = true
          ∧ Str.includes s "ef_construction = 300" = true
          ∧ Str.ends_with s
              (" USING vectors (embedding vector_cos_ops) WITH (options = $$" +:+ Str.nl +:+
               "        [indexing.hnsw]" +:+ Str.nl +:+
               "        m = 16" +:+ Str.nl +:+
               "        ef_construction = 300" +:+ Str.nl +:+
               "        $$)"))
  ∧ (∃ s, createVectorIndex VECTOR tableName indexName = Ok s
          ∧ Str.includes s "USING hnsw" = true
          ∧ Str.ends_with s "USING hnsw (embedding vector_cosine_ops)").
Proof.
  split; [done |].
  split; [eexists; split; [reflexivity | find_in_tail] |].
  split.
  - eexists; split; [reflexivity |].
    repeat split; [find_in_tail .. |].
    at_the_end.
  - eexists; split; [reflexivity |].
    split; [find_in_tail |].
    exists (Str.nl +:+ "        CREATE INDEX IF NOT EXISTS " +:+ indexName +:+ Str.nl +:+
            "        ON " +:+ tableName +:+ Str.nl +:+ "        ").
    rewrite !StrFacts.append_assoc. reflexivity.
Qed.

(** A statement [createVectorIndex] builds carries, in lower case, the
    keyword [shouldReindex] looks for under the same kind. *)
Lemma createVectorIndex_keyword
    (vectorExtension : DatabaseExtension) (tableName indexName s keyword : string) :
  createVectorIndex vectorExtension tableName indexName = Ok s →
  reindex_keyword vectorExtension = Ok keyword →
  Str.includes (Str.toLowerCase s) keyword = true.
Proof.
  destruct vectorExtension; simpl; intros [= <-] [= <-];
    rewrite !StrFacts.toLowerCase_append; find_in_tail.
Qed.

(** ** Drift detection *)

Lemma find_row_None (rows : list IndexRow) (name : string) :
  find_row rows name = None ↔ ∀ index, index ∈ rows → indexname index ≠ name.
Proof.
  unfold find_row. induction rows as [|row rows IH]; simpl.
  - split; [intros _ index Hin; by apply elem_of_nil in Hin | done].
  - case_bool_decide as Hname.
    + split; [done | intros H; exfalso; eapply H; [left | done]].
    + rewrite IH. split.
      * intros H index [-> | Hin]%elem_of_cons; auto.
      * intros H index Hin. apply H. by right.
Qed.

Lemma length_append (a b : string) :
  String.length (a +:+ b) = String.length a + String.length b.
Proof.
  induction a as [|x a IH]; [done |].
  rewrite StrFacts.append_cons. simpl. by rewrite IH.
Qed.

Lemma bound_text_cons (name next : string) (rest : list string) :
  bound_text (name :: next :: rest) = name +:+ "," +:+ bound_text (next :: rest).
Proof. reflexivity. Qed.

Lemma bound_text_covers (names : list string) (name : string) :
  name ∈ names → String.length name ≤ String.length (bound_text names).
Proof.
  induction names as [|first [|next rest] IH].
  - by intros ?%elem_of_nil.
  - by intros ->%list_elem_of_singleton.
  - rewrite bound_text_cons, !length_append.
    intros [-> | Hin]%elem_of_cons; [lia |].
    specialize (IH Hin). lia.
Qed.

(** The text bound for a request of two names or more is none of them. *)
Lemma bound_text_longer (name1 name2 : string) (rest : list string) (name : string) :
  name ∈ name1 :: name2 :: rest → bound_text (name1 :: name2 :: rest) ≠ name.
Proof.
  intros Hin Heq.
  assert (String.length (bound_text (name1 :: name2 :: rest)) = String.length name)
    as Hlen by by rewrite Heq.
  rewrite bound_text_cons, !length_append in Hlen. simpl in Hlen.
  apply elem_of_cons in Hin as [-> | Hin]; [lia |].
  apply bound_text_covers in Hin. lia.
Qed.

(** For a request of one name, the [WHERE] clause does not change what
    [find] finds for it. *)
Lemma find_row_select (pg_indexes : list IndexRow) (name : string) :
  find_row (select_pg_indexes pg_indexes [name]) name = find_row pg_indexes name.
Proof.
  unfold find_row, select_pg_indexes.
  change (bound_text [name]) with name.
  induction pg_indexes as [|row rows IH]; [done |].
  rewrite filter_cons. simpl. case_bool_decide as Hname.
  - rewrite decide_True by done. simpl. by rewrite bool_decide_true.
  - by rewrite decide_False.
Qed.

(** For a request of two names or more, no selected row carries one of
    them. *)
Lemma find_row_select_several
    (pg_indexes : list IndexRow) (name1 name2 : string) (rest : list string)
    (name : string) :
  name ∈ name1 :: name2 :: rest →
  find_row (select_pg_indexes pg_indexes (name1 :: name2 :: rest)) name = None.
Proof.
  intros Hin. apply find_row_None. intros index Hrow Hname.
  unfold select_pg_indexes in Hrow. apply list_elem_of_filter in Hrow as [Hbound _].
  apply (bound_text_longer name1 name2 rest name Hin). congruence.
Qed.

Lemma needs_rebuild_spec (pg_indexes : list IndexRow) (keyword name : string) :
  needs_rebuild (select_pg_indexes pg_indexes [name]) keyword name = true
  ↔ spec_needs_rebuild pg_indexes keyword name.
Proof.
  unfold needs_rebuild, spec_needs_rebuild.
  rewrite find_row_select.
  destruct (find_row pg_indexes name) as [index|] eqn:Hfind.
  - rewrite negb_true_iff. split.
    + intros H. right. by exists index.
    + intros [Hnone | (index' & [= <-] & H)]; [| done].
      apply find_row_None in Hnone. congruence.
  - split; [| done]. intros _. left. by apply find_row_None.
Qed.

Lemma shouldReindex_flags
    (vectorExtension : DatabaseExtension) (keyword : string)
    (pg_indexes : list IndexRow) (name : string) :
  reindex_keyword vectorExtension = Ok keyword →
  flags_follow keyword pg_indexes [name]
    (shouldReindex vectorExtension pg_indexes [name]).
Proof.
  intros Hk. unfold shouldReindex. rewrite Hk. eexists. split; [done |].
  simpl. constructor; [| constructor]. apply needs_rebuild_spec.
Qed.

Lemma shouldReindex_several
    (vectorExtension : DatabaseExtension) (keyword : string)
    (pg_indexes : list IndexRow) (name1 name2 : string) (rest : list string) :
  reindex_keyword vectorExtension = Ok keyword →
  shouldReindex vectorExtension pg_indexes (name1 :: name2 :: rest)
  = Ok (replicate (2 + length rest) true).
Proof.
  intros Hk. unfold shouldReindex. rewrite Hk. f_equal.
  apply list_eq_same_length with (2 + length rest);
    [apply length_replicate | by rewrite List.length_map |].
  intros i flag flag' _ Hflag Hflag'.
  apply lookup_replicate in Hflag' as [-> _].
  apply list_lookup_fmap_Some in Hflag as (name & -> & Hname).
  unfold needs_rebuild.
  by rewrite find_row_select_several by by eapply list_elem_of_lookup_2.
Qed.

(** C6: what [shouldReindex] answers depends on the length of the request.
    For a request of one name it follows the rule: under each supported
    kind the name is flagged exactly when no live definition carries it or
    the definition found does not contain, in lower case, the kind's
    keyword.  For a request of two names or more the query, given the
    joined names as the one element of its array, selects no row of a
    requested name, and every name is flagged whatever the catalog holds:
    with a live [hnsw] index [clip_index] under vector, the request of
    [clip_index] alone is answered [false] and the request of [clip_index]
    and [face_index] is answered [true] for both.  Under any other kind
    the configuration error is raised. *)
Theorem shouldReindex_by_request (pg_indexes : list IndexRow) :
  (∀ name,
     flags_follow "using hnsw" pg_indexes [name]
       (shouldReindex VECTOR pg_indexes [name])
     ∧ flags_follow "using vchordrq" pg_indexes [name]
         (shouldReindex VECTORCHORD pg_indexes [name])
     ∧ flags_follow "using vectors" pg_indexes [name]
         (shouldReindex VECTORS pg_indexes [name]))
  ∧ (∀ name1 name2 rest,
       let all := Ok (replicate (2 + length rest) true) in
       shouldReindex VECTOR pg_indexes (name1 :: name2 :: rest) = all
       ∧ shouldReindex VECTORCHORD pg_indexes (name1 :: name2 :: rest) = all
       ∧ shouldReindex VECTORS pg_indexes (name1 :: name2 :: rest) = all)
  ∧ (∀ kind names,
       shouldReindex (OtherExtension kind) pg_indexes names
       = Err (UnsupportedVectorExtension (OtherExtension kind)))
  ∧ (let live :=
       [{| indexdef := "CREATE INDEX clip_index ON smart_search USING hnsw (embedding vector_cosine_ops)";
           indexname := "clip_index" |}] in
     shouldReindex VECTOR live ["clip_index"] = Ok [false]
     ∧ shouldReindex VECTOR live ["clip_index"; "face_index"] = Ok [true; true]).
Proof.
  split; [| split; [| split]].
  - intros name. repeat split; by apply shouldReindex_flags.
  - intros name1 name2 rest all. repeat split;
      by eapply shouldReindex_several.
  - done.
  - split; reflexivity.
Qed.

(** The two cases the specification lists, for a request of one name: a
    live [hnsw] index under vectorchord is flagged, under vector it is
    not. *)
Example shouldReindex_hnsw_under_vectorchord :
  shouldReindex VECTORCHORD
    [{| indexdef := "CREATE INDEX clip_index ON smart_search USING hnsw (embedding vector_cosine_ops)";
        indexname := "clip_index" |}]
    ["clip_index"]
  = Ok [true].
Proof. reflexivity. Qed.

Example shouldReindex_hnsw_under_vector :
  shouldReindex VECTOR
    [{| indexdef := "CREATE INDEX clip_index ON smart_search USING hnsw (embedding vector_cosine_ops)";
        indexname := "clip_index" |}]
    ["clip_index"]
  = Ok [false].
Proof. reflexivity. Qed.

(** ** Reindexing *)

Section RepositoryFacts.

Variable index_value : VectorIndex → string.
Variable this : DatabaseRepository.



(** The events of a [reindex] that finds its table, from any store. *)
Lemma reindex_found (index : VectorIndex) (table : string) (s : Effect.Store) :
  truthy (getIndexTable index_value this index) = Some table →
  reindex index_value this index s =
  let tx := Effect.next_tx s in
  let before := Effect.events s ++ [Logged LogInfo ("Reindexing " +:+ index_value index)] in
  match getDimSize this table with
  | Err e => (Err e, {| Effect.events := before; Effect.next_tx := tx |})
  | Ok d =>
      let schema :=
        if bool_decide (vectorExtension this = VECTORS) then "vectors." else "" in
      let opened :=
        before ++
        [Begin tx;
         Execute OnDb ("DROP INDEX IF EXISTS " +:+ index_value index);
         Execute (OnTx tx)
           ("ALTER TABLE " +:+ table +:+ " ALTER COLUMN embedding SET DATA TYPE real[]");
         Execute (OnTx tx) (retype_statement table schema d)] in
      match createVectorIndex (vectorExtension this) table (index_value index) with
      | Ok statement =>
          (Ok tt, {| Effect.events := opened ++ [Execute (OnTx tx) statement; Commit tx];
                     Effect.next_tx := S tx |})
      | Err e =>
          (Err e, {| Effect.events := opened ++ [Rollback tx]; Effect.next_tx := S tx |})
      end
  end.
Proof.
  intros Htable. unfold reindex, Effect.bind, log, Effect.emit. simpl.
  rewrite Htable. unfold Effect.lift.
  destruct (getDimSize this table) as [d|e]; [| done].
  unfold Effect.transaction, execute, Effect.emit, Effect.bind, Effect.lift. simpl.
  destruct (createVectorIndex _ _ _); simpl; rewrite <- !app_assoc; done.
Qed.

Lemma reindex_not_found (index : VectorIndex) (s : Effect.Store) :
  truthy (getIndexTable index_value this index) = None →
  reindex index_value this index s =
  (Ok tt,
   {| Effect.events :=
        Effect.events s ++
        [Logged LogInfo ("Reindexing " +:+ index_value index);
         Logged LogWarn ("Could not find table for index " +:+ index_value index)];
      Effect.next_tx := Effect.next_tx s |}).
Proof.
  intros Htable. unfold reindex, Effect.bind, log, warn, Effect.emit. simpl.
  rewrite Htable. simpl. by rewrite <- app_assoc.
Qed.

(** C8: when the owning table of the index cannot be resolved, [reindex]
    logs the miss as a warning and returns normally; its log holds the two
    log lines and no statement at all: no drop, no retype, no creation, no
    transaction. *)
Theorem reindex_soft_miss (index : VectorIndex) :
  truthy (getIndexTable index_value this index) = None →
  Effect.run (reindex index_value this index) =
    (Ok tt,
     [Logged LogInfo ("Reindexing " +:+ index_value index);
      Logged LogWarn ("Could not find table for index " +:+ index_value index)])
  ∧ statements (Effect.run (reindex index_value this index)).2 = [].
Proof.
  intros Htable. unfold Effect.run.
  rewrite (reindex_not_found index Effect.start Htable). done.
Qed.


(** C10: in a [reindex] that reaches the transaction with dimensionality
    [d], the statement after the widening retypes the column to
    [vectors.vector(d)] when the active kind is vectors, and to the
    unqualified [vector(d)] under every other kind. *)
Theorem reindex_retype_target (index : VectorIndex) (table : string) (d : Z) :
  truthy (getIndexTable index_value this index) = Some table →
  getDimSize this table = Ok d →
  ∃ statement,
    (Effect.run (reindex index_value this index)).2 !! 4
      = Some (Execute (OnTx 0) statement)
    ∧ Str.ends_with statement
        ("SET DATA TYPE " +:+
         (if decide (vectorExtension this = VECTORS)
          then "vectors.vector(" else "vector(") +:+ pretty d +:+ ")").
Proof.
  intros Htable Hd. unfold Effect.run.
  rewrite (reindex_found index table Effect.start Htable), Hd.
  eexists. split.
  - simpl. destruct (createVectorIndex _ _ _); reflexivity.
  - unfold retype_statement. case_bool_decide; case_decide; try done.
    + do 6 apply StrFacts.ends_with_after. by exists "        ".
    + do 6 apply StrFacts.ends_with_after. by exists "        ".
Qed.

End RepositoryFacts.

(** On a catalog without indexes the FACE index has no table. *)
Lemma reindex_soft_miss_witness :
  let this := {| vectorExtension := VECTOR; db := Sample.bare_catalog |} in
  truthy (getIndexTable Sample.index_value this FACE) = None
  ∧ Effect.run (Sample.reindex this FACE) =
      (Ok tt,
       [Logged LogInfo "Reindexing face_index";
        Logged LogWarn "Could not find table for index face_index"]).
Proof.
  split; [reflexivity |].
  apply (reindex_soft_miss Sample.index_value
           {| vectorExtension := VECTOR; db := Sample.bare_catalog |} FACE).
  reflexivity.
Defined.


(** The FACE index under vectors, 768 dimensions. *)
Lemma reindex_retype_target_witness :
  let this := {| vectorExtension := VECTORS;
                 db := Sample.catalog "vectors" "0.2.0" "0.2.1" [768%Z] |} in
  truthy (getIndexTable Sample.index_value this FACE) = Some "face_search"
  ∧ getDimSize this "face_search" = Ok 768%Z
  ∧ ∃ statement,
      (Effect.run (Sample.reindex this FACE)).2 !! 4
        = Some (Execute (OnTx 0) statement)
      ∧ Str.ends_with statement "SET DATA TYPE vectors.vector(768)".
Proof.
  split; [reflexivity |]. split; [reflexivity |].
  apply (reindex_retype_target Sample.index_value
           {| vectorExtension := VECTORS;
              db := Sample.catalog "vectors" "0.2.0" "0.2.1" [768%Z] |}
           FACE "face_search" 768%Z); reflexivity.
Defined.

(** ** Extension upgrades *)

Section UpgradeFacts.

Variable extension_value : DatabaseExtension → string.
Variable index_value : VectorIndex → string.
Variable semver_diff : string → string → Result (option ReleaseType).
Variable face_fails_first : bool.
Variable this : DatabaseRepository.

(** Whatever becomes of it, a [reindex] call first logs its index. *)
Lemma reindex_logs_first (index : VectorIndex) (s : Effect.Store) :
  ∃ rest,
    Effect.events (reindex index_value this index s).2 =
    Effect.events s ++ Logged LogInfo ("Reindexing " +:+ index_value index) :: rest.
Proof.
  destruct (truthy (getIndexTable index_value this index)) as [table|] eqn:Htable.
  - rewrite (reindex_found index_value this index table s Htable).
    destruct (getDimSize this table) as [d|e]; simpl.
    + destruct (createVectorIndex _ _ _); simpl;
        rewrite <- !app_assoc; simpl; eauto.
    + exists []. done.
  - rewrite (reindex_not_found index_value this index s Htable). simpl. eauto.
Qed.

Lemma reindex_invoked (index : VectorIndex) (s : Effect.Store) :
  Effect.events s = [] →
  (LogInfo, "Reindexing " +:+ index_value index)
    ∈ log_lines (Effect.events (reindex index_value this index s).2).
Proof.
  intros Hs. destruct (reindex_logs_first index s) as [rest ->].
  rewrite Hs. simpl. apply elem_of_cons. by left.
Qed.

(** C4, as amended: [updateVectorExtension] throws with an empty log when
    the installed or the available version is missing.  Otherwise, with the
    target defaulting to the available version: when [semver.diff] throws,
    so does the call, the transaction rolled back; when the kind is vectors
    and the difference is minor or major, it runs [pgvectors_upgrade],
    calls no [reindex] and returns [restartRequired = true]; in every other
    case it calls [reindex] on CLIP and on FACE, and returns
    [restartRequired = false] when both return, and throws what the one
    failing first threw when one throws, the transaction rolled back. *)
Theorem updateVectorExtension_outcome
    (extension : DatabaseExtension) (targetVersion : option string) :
  let info := getExtensionVersion extension_value this extension in
  let outcome :=
    Effect.run (updateVectorExtension extension_value index_value semver_diff
                  face_fails_first this extension targetVersion) in
  (truthy (installedVersion info) = None →
   outcome = (Err (ExtensionNotInstalled extension), []))
  ∧ (∀ installed,
       truthy (installedVersion info) = Some installed →
       truthy (availableVersion info) = None →
       outcome = (Err (NoAvailableVersion extension), []))
  ∧ (∀ installed available,
       truthy (installedVersion info) = Some installed →
       truthy (availableVersion info) = Some available →
       let target := default available targetVersion in
       let prologue := upgrade_prologue extension_value extension target in
       match semver_diff installed target with
       | Err e => outcome = (Err e, prologue ++ [Rollback 0])
       | Ok diff =>
           if bool_decide (extension = VECTORS
                           ∧ (diff = Some minor ∨ diff = Some major))
           then
             outcome =
               (Ok {| restartRequired := true |},
                prologue ++ [Execute (OnTx 0) "SELECT pgvectors_upgrade()"; Commit 0])
             ∧ log_lines outcome.2 = []
           else
             let clip :=
               reindex index_value this CLIP
                 {| Effect.events := []; Effect.next_tx := 1 |} in
             let face :=
               reindex index_value this FACE
                 {| Effect.events := []; Effect.next_tx := Effect.next_tx clip.2 |} in
             (LogInfo, "Reindexing " +:+ index_value CLIP) ∈ log_lines outcome.2
             ∧ (LogInfo, "Reindexing " +:+ index_value FACE) ∈ log_lines outcome.2
             ∧ outcome =
                 match clip.1, face.1 with
                 | Ok _, Ok _ =>
                     (Ok {| restartRequired := false |},
                      prologue ++
                      [Concurrently (Effect.events clip.2) (Effect.events face.2);
                       Commit 0])
                 | Err e1, Err e2 =>
                     (Err (if face_fails_first then e2 else e1),
                      prologue ++
                      [Concurrently (Effect.events clip.2) (Effect.events face.2);
                       Rollback 0])
                 | Err e, Ok _ | Ok _, Err e =>
                     (Err e,
                      prologue ++
                      [Concurrently (Effect.events clip.2) (Effect.events face.2);
                       Rollback 0])
                 end
       end).
Proof.
  intros info outcome. subst outcome.
  unfold updateVectorExtension, Effect.run. fold info.
  split; [intros ->; done |].
  split; [intros installed -> ->; done |].
  intros installed available -> ->.
  set (target := default available targetVersion).
  set (prologue := upgrade_prologue extension_value extension target).
  unfold Effect.bind, Effect.transaction, setSearchPath, execute, Effect.emit,
    Effect.lift. simpl.
  destruct (semver_diff installed target) as [diff|e]; [| done].
  assert (bool_decide (extension = VECTORS) && minor_or_major diff
          = bool_decide (extension = VECTORS
                         ∧ (diff = Some minor ∨ diff = Some major))) as ->.
  { destruct (decide (extension = VECTORS)) as [-> | Hne].
    - rewrite bool_decide_true by done.
      by destruct diff as [[]|].
    - rewrite (bool_decide_false _ Hne). symmetry.
      apply bool_decide_eq_false. by intros [? _]. }
  case_bool_decide as Hcase; [done |].
  unfold Effect.promise_all2. simpl.
  pose proof (reindex_invoked CLIP {| Effect.events := []; Effect.next_tx := 1 |} eq_refl)
    as Hclip.
  destruct (reindex index_value this CLIP _) as [r1 s1]. simpl in *.
  pose proof (reindex_invoked FACE
                {| Effect.events := []; Effect.next_tx := Effect.next_tx s1 |} eq_refl)
    as Hface.
  destruct (reindex index_value this FACE _) as [r2 s2]. simpl in *.
  unfold log_lines in *.
  destruct r1 as [[]|e1], r2 as [[]|e2]; simpl;
    (split; [| split; [| done]]);
    apply elem_of_app; left; apply elem_of_app; auto.
Qed.

End UpgradeFacts.

(** C4 as stated fails: with pgvector 0.7.0 installed, 0.8.0 on offer and an
    embedding column whose type carries no dimension (the attribute query
    answers -1), both versions are present and the kind is not vectors, yet
    the call does not return [restartRequired = false]: the [reindex] of CLIP
    throws and the call throws with it. *)
Lemma updateVectorExtension_reindex_failure :
  let this := {| vectorExtension := VECTOR;
                 db := Sample.catalog "vector" "0.7.0" "0.8.0" [(-1)%Z] |} in
  let info := getExtensionVersion Sample.extension_value this VECTOR in
  let outcome := Effect.run (Sample.updateVectorExtension this VECTOR None) in
  installedVersion info = Some "0.7.0"
  ∧ availableVersion info = Some "0.8.0"
  ∧ outcome.1 = Err CouldNotRetrieveDimensionSize
  ∧ outcome.1 ≠ Ok {| restartRequired := false |}.
Proof. repeat split; done. Qed.

(** The two upgrades the specification works out: a major step of the
    vectors extension asks for a restart and reindexes nothing; a patch step
    reindexes both indexes and asks for none. *)
Example updateVectorExtension_major :
  let this := {| vectorExtension := VECTORS;
                 db := Sample.catalog "vectors" "1.0.0" "2.0.0" [512%Z] |} in
  let outcome := Effect.run (Sample.updateVectorExtension this VECTORS None) in
  outcome.1 = Ok {| restartRequired := true |}
  ∧ log_lines outcome.2 = []
  ∧ (statements outcome.2).*2 =
      ["SET search_path TO " +:+ String (Ascii.ascii_of_nat 34) "$user"
       +:+ String (Ascii.ascii_of_nat 34) ", public, vectors";
       "ALTER EXTENSION vectors UPDATE TO '2.0.0'";
       "SELECT pgvectors_upgrade()"].
Proof. repeat split. Qed.

Example updateVectorExtension_patch :
  let this := {| vectorExtension := VECTORS;
                 db := Sample.catalog "vectors" "1.0.0" "1.0.1" [512%Z] |} in
  let outcome := Effect.run (Sample.updateVectorExtension this VECTORS None) in
  outcome.1 = Ok {| restartRequired := false |}
  ∧ log_lines outcome.2 =
      [(LogInfo, "Reindexing clip_index"); (LogInfo, "Reindexing face_index")].
Proof. repeat split. Qed.

(** ** The engine's advisory locks *)

Module PgFacts.

Lemma advisory_lock_Some (id : Z) (c : Conn) (w w' : World) :
  Pg.advisory_lock id c w = Some w' →
  busy w' = busy w ∧ checked_out w' = checked_out w
  ∧ holds w' id c = S (holds w id c)
  ∧ (∀ id', id' ≠ id → advisory w' !! id' = advisory w !! id')
  ∧ (∀ holder n, advisory w !! id = Some (holder, n) → holder = c)
  ∧ (∃ n, advisory w' !! id = Some (c, n)).
Proof.
  unfold Pg.advisory_lock, holds.
  destruct (advisory w !! id) as [[holder n]|] eqn:E.
  - case_decide as Hc; [| done]. intros [= <-]. simpl.
    rewrite lookup_insert_eq, decide_True by done.
    repeat split; try done.
    + lia.
    + intros id' Hid. by rewrite lookup_insert_ne.
    + by intros ? ? [= <- _].
    + eauto.
  - intros [= <-]. simpl. rewrite lookup_insert_eq, decide_True by done.
    repeat split; try done.
    + intros id' Hid. by rewrite lookup_insert_ne.
    + eauto.
Qed.

Lemma advisory_lock_None (id : Z) (c : Conn) (w : World) :
  Pg.advisory_lock id c w = None
  ↔ ∃ holder n, advisory w !! id = Some (holder, n) ∧ holder ≠ c.
Proof.
  unfold Pg.advisory_lock.
  destruct (advisory w !! id) as [[holder n]|] eqn:E.
  - case_decide as Hc; split; try done.
    + intros (? & ? & [= <- <-] & ?). done.
    + intros _. by exists holder, n.
  - split; [done | by intros (? & ? & ? & _)].
Qed.

Lemma advisory_unlock_frame (id : Z) (c : Conn) (w : World) :
  let w' := (Pg.advisory_unlock id c w).2 in
  busy w' = busy w ∧ checked_out w' = checked_out w
  ∧ (∀ id', id' ≠ id → advisory w' !! id' = advisory w !! id')
  ∧ (∀ holder n, advisory w !! id = Some (holder, n) → holder ≠ c →
                 advisory w' = advisory w).
Proof.
  unfold Pg.advisory_unlock.
  destruct (advisory w !! id) as [[holder n]|] eqn:E; [| done].
  case_decide as Hc; [| done]. simpl. repeat split; try done.
  - intros id' Hid. case_decide.
    + by rewrite lookup_delete_ne.
    + by rewrite lookup_insert_ne.
  - intros ? ? [= <- <-] ?. done.
Qed.


(** Unlocking right after locking gives the table back as it was. *)
Lemma advisory_unlock_lock (id : Z) (c : Conn) (w w1 : World) :
  Pg.advisory_lock id c w = Some w1 →
  (Pg.advisory_unlock id c w1).2 = w.
Proof.
  unfold Pg.advisory_lock, Pg.advisory_unlock.
  destruct w as [b co adv]. simpl.
  destruct (adv !! id) as [[holder n]|] eqn:E.
  - case_decide as Hc; [| done]. intros [= <-]. simpl.
    rewrite lookup_insert_eq, decide_True by done. simpl.
    rewrite decide_False by lia. f_equal.
    rewrite insert_insert_eq, Pos.pred_succ. apply insert_id. by subst.
  - intros [= <-]. simpl. rewrite lookup_insert_eq, decide_True by done. simpl.
    f_equal. rewrite delete_insert_eq. by apply delete_id.
Qed.

End PgFacts.

(** ** One call at a time *)

Module WorldFacts.

Lemma free_take_key (pid : Pid) (key : string) (w : World) :
  (pid, key) ∉ busy w → free_key pid key (take_key pid key w) = w.
Proof.
  intros H. destruct w as [b co adv]. unfold free_key, take_key. simpl in *.
  f_equal. set_solver.
Qed.

Lemma check_in_out (c : Conn) (w : World) :
  c ∉ checked_out w → check_in c (check_out c w) = w.
Proof.
  intros H. destruct w as [b co adv]. unfold check_in, check_out. simpl in *.
  f_equal. set_solver.
Qed.

End WorldFacts.

Section LockFacts.

Context {DatabaseLock : Type}.
Variable lock_value : DatabaseLock → Z.
Variable lock_name : DatabaseLock → string.
Variable pid : Pid.
Variable slot : nat.

(** [withLock] exits exactly when the mutex key is free, the pool can hand
    out the connection, no other session holds the advisory lock and the
    callback exits; the world it leaves is the one the callback left, after
    the unlock on the same connection, the return of the connection and the
    release of the key. *)
Lemma withLock_Exited {R} (lock : DatabaseLock) (callback : Seq.P R)
    (w w' : World) (r : Result R) :
  withLock lock_value lock_name pid slot lock callback w = Exited r w'
  ↔ ((pid, lock_name lock) ∉ busy w)
    ∧ ((pid, slot) ∉ checked_out w)
    ∧ ∃ w_body w_after,
        Pg.advisory_lock (lock_value lock) (pid, slot)
          (check_out (pid, slot) (take_key pid (lock_name lock) w)) = Some w_body
        ∧ callback w_body = Exited r w_after
        ∧ w' = free_key pid (lock_name lock)
                 (check_in (pid, slot)
                    (Pg.advisory_unlock (lock_value lock) (pid, slot) w_after).2).
Proof.
  unfold withLock, Seq.asyncLock_acquire, Seq.connection_execute, Seq.try_finally,
    Seq.bind, acquireLock, releaseLock.
  case_decide as Hbusy; [split; [done | by intros (? & _)] |].
  case_decide as Hconn; [split; [done | by intros (_ & ? & _)] |].
  destruct (Pg.advisory_lock _ _ _) as [w_body|];
    [| split; [done | by intros (_ & _ & ? & ? & ? & _)]].
  destruct (callback w_body) as [r_cb w_after|] eqn:Hcb.
  - split.
    + intros [= <- <-]. do 2 (split; [done |]). by exists w_body, w_after.
    + intros (_ & _ & w1 & w2 & [= <-] & Hcb' & ->).
      rewrite Hcb in Hcb'. by injection Hcb' as -> ->.
  - split; [done |].
    intros (_ & _ & w1 & w2 & [= <-] & Hcb' & _). congruence.
Qed.

(** With both statements accepted, [Fallible.withLock] is [withLock]. *)
Lemma withLock_accepted {R} (lock : DatabaseLock) (callback : Seq.P R) :
  Fallible.withLock accepted lock_value lock_name pid slot lock callback
  = withLock lock_value lock_name pid slot lock callback.
Proof. reflexivity. Qed.



(** X7: [withLock] gives back the advisory lock it took.  After a call on
    a lock no session held, with a callback that leaves the advisory locks
    alone and settles, with a value or a failure, no session holds the
    lock: a probe through any connection that is free, of this or of
    another process, answers [true] and is the one hold on the lock. *)
Theorem tryLock_after_withLock {R} (lock : DatabaseLock) (callback : Seq.P R)
    (w w' : World) (r : Result R) (pid' : Pid) (slot' : nat) :
  advisory w !! lock_value lock = None →
  (∀ w1 r1 w2, callback w1 = Exited r1 w2 → advisory w2 = advisory w1) →
  withLock lock_value lock_name pid slot lock callback w = Exited r w' →
  ((pid', slot') ∉ checked_out w') →
  advisory w' !! lock_value lock = None
  ∧ ∃ w'',
      tryLock lock_value pid' slot' lock w' = Exited (Ok true) w''
      ∧ advisory w'' !! lock_value lock = Some ((pid', slot'), 1%positive).
Proof.
  intros Hfree Hcallback
    (Hkey & Hconn & w_body & w_after & Hlock & Hcb & ->)%withLock_Exited Hconn'.
  assert (advisory w_after
          = <[lock_value lock := ((pid, slot), 1%positive)]> (advisory w)) as Hafter.
  { rewrite (Hcallback _ _ _ Hcb). revert Hlock. unfold Pg.advisory_lock. simpl.
    rewrite Hfree. by intros [= <-]. }
  assert (advisory (Pg.advisory_unlock (lock_value lock) (pid, slot) w_after).2
          = advisory w) as Hback.
  { unfold Pg.advisory_unlock. rewrite Hafter, lookup_insert_eq.
    rewrite decide_True by done. simpl.
    rewrite delete_insert_eq. by apply delete_id. }
  simpl in *. rewrite Hback. split; [done |].
  unfold tryLock, Seq.connection_execute, acquireTryLock, Pg.try_advisory_lock,
    Pg.advisory_lock.
  rewrite decide_False by done. simpl. rewrite Hback, Hfree.
  eexists. split; [done |]. simpl. by rewrite lookup_insert_eq.
Qed.

(** C3, as amended: [tryLock] waits only for its pool connection, never
    for the lock, and leaves the mutex table and the pool as they were.  It
    answers [true] exactly when no other session holds the advisory lock;
    then the session of the connection it used holds the lock one level up
    when it returns, no unlock being sent, and all other locks are as
    before.  When it answers [false] the world is unchanged. *)
Theorem tryLock_outcome (lock : DatabaseLock) (w : World) :
  let c := (pid, slot) in
  let id := lock_value lock in
  (tryLock lock_value pid slot lock w = Waiting ↔ c ∈ checked_out w)
  ∧ ((c ∉ checked_out w) →
     ∃ obtained w',
       tryLock lock_value pid slot lock w = Exited (Ok obtained) w'
       ∧ busy w' = busy w ∧ checked_out w' = checked_out w
       ∧ (obtained = true
          ↔ ∀ holder n, advisory w !! id = Some (holder, n) → holder = c)
       ∧ (obtained = true →
          holds w' id c = S (holds w id c)
          ∧ ∀ id', id' ≠ id → advisory w' !! id' = advisory w !! id')
       ∧ (obtained = false → w' = w)).
Proof.
  intros c id.
  unfold tryLock, Seq.connection_execute, acquireTryLock, Pg.try_advisory_lock.
  fold c id. case_decide as Hconn.
  - split; [done |]. by intros [].
  - split.
    { split; [| done]. by destruct (Pg.advisory_lock id c (check_out c w)). }
    intros _.
    destruct (Pg.advisory_lock id c (check_out c w)) as [w1|] eqn:Hlock.
    + destruct (PgFacts.advisory_lock_Some _ _ _ _ Hlock)
        as (Hb & Hc & Hh & Hothers & Hholder & _).
      exists true, (check_in c w1). split; [done |]. simpl.
      rewrite Hb, Hc. simpl.
      split; [done |]. split; [set_solver |]. split; [done |].
      split; [| done]. intros _. by split.
    + apply PgFacts.advisory_lock_None in Hlock as (holder & n & Hheld & Hne).
      exists false, w. split; [by rewrite WorldFacts.check_in_out |].
      do 2 (split; [done |]). split; [| done].
      split; [done |]. intros H. destruct Hne. by eapply H.
Qed.

(** [wait] is left waiting exactly while the mutex key is busy; otherwise it
    returns and the world is as before. *)
Lemma wait_outcome (lock : DatabaseLock) (w : World) :
  (wait lock_name pid lock w = Waiting ↔ (pid, lock_name lock) ∈ busy w)
  ∧ (((pid, lock_name lock) ∉ busy w) →
     wait lock_name pid lock w = Exited (Ok tt) w).
Proof.
  unfold wait, Seq.asyncLock_acquire, Seq.ret. case_decide as Hbusy.
  - split; [done |]. by intros [].
  - split; [done |]. intros _. by rewrite WorldFacts.free_take_key.
Qed.

End LockFacts.

(** ** Calls side by side: what one move changes *)

Section MoveFacts.

Variables DatabaseLock R : Type.
Variable lock_value : DatabaseLock → Z.
Variable lock_name : DatabaseLock → string.

Implicit Types (t : Task DatabaseLock R) (m : Move R) (pc : Pc R) (w : World).

(** A move leaves the mutex table alone, or the task enters the mutex on a
    key that was free, or it leaves the mutex and frees its key. *)
Lemma next_mutex t m w w' pc :
  next lock_value lock_name t m w = Some (pc, w') →
  (busy w' = busy w ∧ in_mutex (at_pc t pc) = in_mutex t)
  ∨ (in_mutex t = false ∧ in_mutex (at_pc t pc) = true
     ∧ (key_of lock_name t ∉ busy w)
     ∧ busy w' = {[key_of lock_name t]} ∪ busy w)
  ∨ (in_mutex t = true ∧ in_mutex (at_pc t pc) = false
     ∧ busy w' = busy w ∖ {[key_of lock_name t]}).
Proof.
  destruct t as [p call pc0]. unfold next, key_of, in_mutex, at_pc. simpl.
  destruct call, pc0, m; simpl; try done;
    repeat case_decide; try done;
    try (intros [= <- <-]; simpl;
         first [ by left | by right; left | by right; right ]).
  - destruct (Pg.advisory_lock _ _ _) as [w1|] eqn:Hlock; [| done].
    intros [= <- <-]. left.
    by destruct (PgFacts.advisory_lock_Some _ _ _ _ Hlock) as (-> & _).
  - intros [= <- <-]. left.
    by destruct (PgFacts.advisory_unlock_frame (lock_value lock) c w) as (-> & _).
  - unfold Pg.try_advisory_lock.
    destruct (Pg.advisory_lock _ _ _) as [w1|] eqn:Hlock; intros [= <- <-]; left;
      [| done].
    by destruct (PgFacts.advisory_lock_Some _ _ _ _ Hlock) as (-> & _).
Qed.

(** A move leaves the pool alone, or the task checks out a connection
    nobody had, or it returns the one it had. *)
Lemma next_connection t m w w' pc :
  next lock_value lock_name t m w = Some (pc, w') →
  (checked_out w' = checked_out w
   ∧ connection_of (at_pc t pc) = connection_of t)
  ∨ (∃ c, connection_of t = None ∧ connection_of (at_pc t pc) = Some c
          ∧ (c ∉ checked_out w) ∧ checked_out w' = {[c]} ∪ checked_out w)
  ∨ (∃ c, connection_of t = Some c ∧ connection_of (at_pc t pc) = None
          ∧ checked_out w' = checked_out w ∖ {[c]}).
Proof.
  destruct t as [p call pc0]. unfold next, connection_of, at_pc. simpl.
  destruct call, pc0, m; simpl; try done;
    repeat case_decide; try done;
    try (intros [= <- <-]; simpl;
         first [ by left | by right; left; eexists | by right; right; eexists ]).
  - destruct (Pg.advisory_lock _ _ _) as [w1|] eqn:Hlock; [| done].
    intros [= <- <-]. left.
    by destruct (PgFacts.advisory_lock_Some _ _ _ _ Hlock) as (_ & -> & _).
  - intros [= <- <-]. left.
    by destruct (PgFacts.advisory_unlock_frame (lock_value lock) c w)
      as (_ & -> & _).
  - unfold Pg.try_advisory_lock.
    destruct (Pg.advisory_lock _ _ _) as [w1|] eqn:Hlock; intros [= <- <-]; left;
      [| done].
    by destruct (PgFacts.advisory_lock_Some _ _ _ _ Hlock) as (_ & -> & _).
Qed.

(** A move leaves the advisory locks alone and the task where it was with
    respect to the acquisition, or it runs a lock statement on the task's
    connection: that touches its own lock key only, leaves a lock held by
    another session alone, and lets the task past the acquisition only as
    the holder. *)
Lemma next_advisory t m w w' pc :
  next lock_value lock_name t m w = Some (pc, w') →
  (advisory w' = advisory w
   ∧ (past_acquisition (at_pc t pc) = None
      ∨ past_acquisition (at_pc t pc) = past_acquisition t))
  ∨ (∃ c, connection_of t = Some c
          ∧ (∀ id, id ≠ id_of lock_value t →
                   advisory w' !! id = advisory w !! id)
          ∧ (∀ holder n, advisory w !! id_of lock_value t = Some (holder, n) →
                         holder ≠ c →
                         advisory w' !! id_of lock_value t = Some (holder, n))
          ∧ (∀ c', past_acquisition (at_pc t pc) = Some c' →
                   ∃ n, advisory w' !! id_of lock_value t = Some (c', n))).
Proof.
  destruct t as [p call pc0].
  unfold next, connection_of, past_acquisition, id_of, at_pc. simpl.
  destruct call, pc0, m; simpl; try done;
    repeat case_decide; try done;
    try (intros [= <- <-]; simpl; left; by auto).
  - destruct (Pg.advisory_lock _ _ _) as [w1|] eqn:Hlock; [| done].
    intros [= <- <-]. right. exists c. split; [done |].
    destruct (PgFacts.advisory_lock_Some _ _ _ _ Hlock)
      as (_ & _ & _ & Hothers & Hholder & Hmine).
    split; [done |]. split.
    + intros holder n Hheld Hne. destruct Hne. by eapply Hholder.
    + by intros ? [= <-].
  - intros [= <- <-]. right. exists c. split; [done |].
    destruct (PgFacts.advisory_unlock_frame (lock_value lock) c w)
      as (_ & _ & Hothers & Hheld).
    split; [done |]. split; [| done].
    intros holder n Hh Hne. by rewrite (Hheld holder n Hh Hne).
  - unfold Pg.try_advisory_lock.
    destruct (Pg.advisory_lock _ _ _) as [w1|] eqn:Hlock; intros [= <- <-];
      [| left; by auto].
    right. exists c. split; [done |].
    destruct (PgFacts.advisory_lock_Some _ _ _ _ Hlock)
      as (_ & _ & _ & Hothers & Hholder & Hmine).
    split; [done |]. split; [| done].
    intros holder n Hheld Hne. destruct Hne. by eapply Hholder.
Qed.

Lemma past_acquisition_connection t c :
  past_acquisition t = Some c → connection_of t = Some c.
Proof.
  destruct t as [p call pc0]. unfold past_acquisition, connection_of. simpl.
  destruct call, pc0; by intros [= <-].
Qed.

Lemma in_callback_in_mutex t : in_callback t = true → in_mutex t = true.
Proof.
  destruct t as [p call pc0]. unfold in_callback, in_mutex. simpl.
  by destruct call, pc0.
Qed.

End MoveFacts.

(** ** Calls side by side: the invariant *)

Section InvariantFacts.

Variables DatabaseLock R : Type.
Variable lock_value : DatabaseLock → Z.
Variable lock_name : DatabaseLock → string.

Implicit Types (t : Task DatabaseLock R) (s : System DatabaseLock R).

Lemma invariant_boot :
  lock_invariant lock_value lock_name (boot : System DatabaseLock R).
Proof. split; intros *; simpl; by rewrite lookup_empty. Qed.

Lemma invariant_invoke s tid pid call :
  tasks s !! tid = None →
  lock_invariant lock_value lock_name s →
  lock_invariant lock_value lock_name
    {| world := world s;
       tasks := <[tid := {| task_pid := pid; task_call := call;
                            task_pc := Called |}]> (tasks s) |}.
Proof.
  intros Hfresh [Hm Hm1 Hc Hc1 Ha].
  assert (in_mutex ({| task_pid := pid; task_call := call; task_pc := Called |}
                    : Task DatabaseLock R)
          = false) as Hout by by destruct call.
  assert (past_acquisition
            ({| task_pid := pid; task_call := call; task_pc := Called |}
             : Task DatabaseLock R)
          = None) as Hnot by by destruct call.
  split; simpl.
  - intros tid' t [[<- <-] | [_ Ht]]%lookup_insert_Some; [congruence | eauto].
  - intros tid1 tid2 t1 t2
      [[<- <-] | [_ Ht1]]%lookup_insert_Some
      [[<- <-] | [_ Ht2]]%lookup_insert_Some; try congruence. eauto.
  - intros tid' t c [[<- <-] | [_ Ht]]%lookup_insert_Some; [done | eauto].
  - intros tid1 tid2 t1 t2 c
      [[<- <-] | [_ Ht1]]%lookup_insert_Some
      [[<- <-] | [_ Ht2]]%lookup_insert_Some; try done. eauto.
  - intros tid' t c [[<- <-] | [_ Ht]]%lookup_insert_Some; [congruence | eauto].
Qed.

Lemma invariant_move s tid t0 m pc w' :
  tasks s !! tid = Some t0 →
  next lock_value lock_name t0 m (world s) = Some (pc, w') →
  lock_invariant lock_value lock_name s →
  lock_invariant lock_value lock_name
    {| world := w'; tasks := <[tid := at_pc t0 pc]> (tasks s) |}.
Proof.
  intros Ht0 Hnext [Hm Hm1 Hc Hc1 Ha].
  pose proof (next_mutex _ _ _ _ _ _ _ _ _ Hnext) as Hmutex.
  pose proof (next_connection _ _ _ _ _ _ _ _ _ Hnext) as Hconn.
  pose proof (next_advisory _ _ _ _ _ _ _ _ _ Hnext) as Hadv.
  assert (key_of lock_name (at_pc t0 pc) = key_of lock_name t0) as Hkey by done.
  assert (id_of lock_value (at_pc t0 pc) = id_of lock_value t0) as Hid by done.
  split; simpl.
  - (* a task inside the mutex has its key busy *)
    intros tid' t [[<- <-] | [Hne Ht]]%lookup_insert_Some Hin.
    + rewrite Hkey.
      destruct Hmutex as [[-> Hsame] | [(_ & _ & _ & ->) | (_ & Hout & _)]].
      * rewrite Hsame in Hin. eauto.
      * set_solver.
      * congruence.
    + destruct Hmutex as [[-> _] | [(_ & _ & _ & ->) | (Hin0 & _ & ->)]].
      * eauto.
      * apply elem_of_union_r. eauto.
      * apply elem_of_difference. split; [eauto |].
        intros Heq%elem_of_singleton. destruct Hne.
        by apply (Hm1 tid tid' t0 t).
  - (* and it is alone under that key *)
    intros tid1 tid2 t1 t2
      [[<- <-] | [Hne1 Ht1]]%lookup_insert_Some
      [[<- <-] | [Hne2 Ht2]]%lookup_insert_Some Hin1 Hin2 Hk; try done.
    + rewrite Hkey in Hk.
      destruct Hmutex as [[_ Hsame] | [(_ & _ & Hfree & _) | (_ & Hout & _)]].
      * rewrite Hsame in Hin1. eauto.
      * destruct Hfree. rewrite Hk. eauto.
      * congruence.
    + rewrite Hkey in Hk.
      destruct Hmutex as [[_ Hsame] | [(_ & _ & Hfree & _) | (_ & Hout & _)]].
      * rewrite Hsame in Hin2. eauto.
      * destruct Hfree. rewrite <- Hk. eauto.
      * congruence.
    + eauto.
  - (* a task with a connection has it checked out *)
    intros tid' t c [[<- <-] | [Hne Ht]]%lookup_insert_Some Hhas.
    + destruct Hconn as [[-> Hsame] | [(c' & _ & Hnew & _ & ->) | (c' & _ & Hout & _)]].
      * rewrite Hsame in Hhas. eauto.
      * rewrite Hnew in Hhas. set_solver.
      * congruence.
    + destruct Hconn as [[-> _] | [(c' & _ & _ & _ & ->) | (c' & Hhad & _ & ->)]].
      * eauto.
      * apply elem_of_union_r. eauto.
      * apply elem_of_difference. split; [eauto |].
        intros ->%elem_of_singleton. destruct Hne.
        by apply (Hc1 tid tid' t0 t c').
  - (* and it is alone on it *)
    intros tid1 tid2 t1 t2 c
      [[<- <-] | [Hne1 Ht1]]%lookup_insert_Some
      [[<- <-] | [Hne2 Ht2]]%lookup_insert_Some Hhas1 Hhas2; try done.
    + destruct Hconn as [[_ Hsame] | [(c' & _ & Hnew & Hfree & _) | (c' & _ & Hout & _)]].
      * rewrite Hsame in Hhas1. eauto.
      * destruct Hfree. rewrite Hnew in Hhas1. injection Hhas1 as ->. eauto.
      * congruence.
    + destruct Hconn as [[_ Hsame] | [(c' & _ & Hnew & Hfree & _) | (c' & _ & Hout & _)]].
      * rewrite Hsame in Hhas2. eauto.
      * destruct Hfree. rewrite Hnew in Hhas2. injection Hhas2 as ->. eauto.
      * congruence.
    + eauto.
  - (* a task past the acquisition is on the holding session *)
    intros tid' t c [[<- <-] | [Hne Ht]]%lookup_insert_Some Hpast.
    + rewrite Hid.
      destruct Hadv as [[-> [Hnone | Hsame]] | (c0 & _ & _ & _ & Hmine)].
      * congruence.
      * rewrite Hsame in Hpast. eauto.
      * eauto.
    + destruct Hadv as [[-> _] | (c0 & Hhas0 & Hothers & Hheld & _)]; [eauto |].
      destruct (Ha tid' t c Ht Hpast) as [n Hn].
      destruct (decide (id_of lock_value t = id_of lock_value t0)) as [Heq | Hneq].
      * exists n. rewrite Heq in *. apply Hheld; [done |].
        intros ->. destruct Hne.
        apply (Hc1 tid tid' t0 t c0); try done.
        by apply past_acquisition_connection.
      * exists n. by rewrite Hothers.
Qed.

Lemma invariant_fire s s' a :
  fire lock_value lock_name a s = Some s' →
  lock_invariant lock_value lock_name s →
  lock_invariant lock_value lock_name s'.
Proof.
  destruct a as [tid pid call | tid m]; simpl.
  - destruct (tasks s !! tid) eqn:Hfresh; [done |].
    intros [= <-]. by apply invariant_invoke.
  - destruct (tasks s !! tid) as [t0|] eqn:Ht0; [| done]. simpl.
    destruct (next _ _ t0 m (world s)) as [[pc w']|] eqn:Hnext; [| done]. simpl.
    intros [= <-]. by eapply invariant_move.
Qed.

Lemma invariant_run actions s s' :
  run lock_value lock_name actions s = Some s' →
  lock_invariant lock_value lock_name s →
  lock_invariant lock_value lock_name s'.
Proof.
  revert s. induction actions as [|a rest IH]; intros s; simpl.
  - by intros [= <-].
  - destruct (fire _ _ a s) as [s1|] eqn:Hfire; [| done]. simpl.
    intros Hrun Hinv. eapply IH; [done |]. by eapply invariant_fire.
Qed.

Lemma invariant_reachable s :
  reachable lock_value lock_name s → lock_invariant lock_value lock_name s.
Proof.
  intros [actions Hrun]. eapply invariant_run; [done |]. apply invariant_boot.
Qed.

End InvariantFacts.

(** ** Calls side by side: mutual exclusion *)

Section ExclusionFacts.

Variables DatabaseLock R : Type.
Variable lock_value : DatabaseLock → Z.
Variable lock_name : DatabaseLock → string.

Implicit Types (t : Task DatabaseLock R) (s : System DatabaseLock R).

Lemma reachable_boot : reachable lock_value lock_name (boot : System DatabaseLock R).
Proof. by exists []. Qed.

Lemma run_app actions1 actions2 s :
  run lock_value lock_name (actions1 ++ actions2) s
  = run lock_value lock_name actions1 s ≫= run lock_value lock_name actions2.
Proof.
  revert s. induction actions1 as [|a rest IH]; intros s; simpl; [done |].
  destruct (fire _ _ a s); simpl; [apply IH | done].
Qed.

Lemma reachable_run s s' actions :
  reachable lock_value lock_name s →
  run lock_value lock_name actions s = Some s' →
  reachable lock_value lock_name s'.
Proof.
  intros [before Hrun] Hmore. exists (before ++ actions).
  by rewrite run_app, Hrun.
Qed.

Lemma run_cons a rest s :
  run lock_value lock_name (a :: rest) s
  = fire lock_value lock_name a s ≫= run lock_value lock_name rest.
Proof. done. Qed.

Lemma fire_do s tid t m pc w' :
  tasks s !! tid = Some t →
  next lock_value lock_name t m (world s) = Some (pc, w') →
  fire lock_value lock_name (Do tid m) s
  = Some {| world := w'; tasks := <[tid := at_pc t pc]> (tasks s) |}.
Proof. intros Ht Hnext. simpl. rewrite Ht. simpl. by rewrite Hnext. Qed.

Local Arguments run : simpl never.
Local Arguments fire : simpl never.

(** From its start, a [withLock] call whose key, connection and advisory
    lock are free gets into its callback in three moves. *)
Lemma enter_callback s tid pid lock slot :
  tasks s !! tid
    = Some {| task_pid := pid; task_call := WithLock lock; task_pc := Called |} →
  ((pid, lock_name lock) ∉ busy (world s)) →
  ((pid, slot) ∉ checked_out (world s)) →
  advisory (world s) !! lock_value lock = None →
  run lock_value lock_name [Do tid Resume; Do tid (Connect slot); Do tid Resume] s
  = Some {| world :=
              {| busy := {[(pid, lock_name lock)]} ∪ busy (world s);
                 checked_out := {[(pid, slot)]} ∪ checked_out (world s);
                 advisory := <[lock_value lock := ((pid, slot), 1%positive)]>
                               (advisory (world s)) |};
            tasks :=
              <[tid := {| task_pid := pid; task_call := WithLock lock;
                          task_pc := InCallback (pid, slot) |}]> (tasks s) |}.
Proof.
  intros Ht Hkey Hconn Hfree.
  rewrite run_cons. erewrite fire_do; [| done |]; last first.
  { unfold next. simpl. by rewrite decide_False. }
  simpl. rewrite run_cons.
  erewrite fire_do; [| simpl; apply lookup_insert_eq |]; last first.
  { unfold next. simpl. by rewrite decide_False. }
  simpl. rewrite run_cons.
  erewrite fire_do; [| simpl; apply lookup_insert_eq |]; last first.
  { unfold next, Pg.advisory_lock. simpl. rewrite Hfree. done. }
  simpl. by rewrite !insert_insert_eq.
Qed.

(** Two calls of one process on one lock are never both inside the mutex. *)
Lemma callbacks_exclusive s tid1 tid2 t1 t2 :
  reachable lock_value lock_name s →
  tasks s !! tid1 = Some t1 → tasks s !! tid2 = Some t2 →
  in_callback t1 = true → in_callback t2 = true →
  key_of lock_name t1 = key_of lock_name t2 →
  tid1 = tid2.
Proof.
  intros Hinv%invariant_reachable Ht1 Ht2 Hin1%in_callback_in_mutex
    Hin2%in_callback_in_mutex Hkey.
  by eapply (mutex_single Hinv).
Qed.

(** Two calls anywhere on one advisory-lock key are never both past the
    acquisition. *)
Lemma holders_exclusive s tid1 tid2 t1 t2 c1 c2 :
  reachable lock_value lock_name s →
  tasks s !! tid1 = Some t1 → tasks s !! tid2 = Some t2 →
  past_acquisition t1 = Some c1 → past_acquisition t2 = Some c2 →
  id_of lock_value t1 = id_of lock_value t2 →
  tid1 = tid2.
Proof.
  intros Hinv%invariant_reachable Ht1 Ht2 Hp1 Hp2 Hid.
  destruct (advisory_held Hinv tid1 t1 c1 Ht1 Hp1) as [n1 Hn1].
  destruct (advisory_held Hinv tid2 t2 c2 Ht2 Hp2) as [n2 Hn2].
  rewrite Hid, Hn2 in Hn1. injection Hn1 as -> _.
  apply (connection_single Hinv tid1 tid2 t1 t2 c1 Ht1 Ht2);
    by apply past_acquisition_connection.
Qed.

(** C2: in every state the calls can reach, two [withLock] calls of one
    process on one lock never have their callbacks running together; for
    two locks with different keys and ids there is a reachable state where
    two calls of one process run their callbacks together; and, whatever
    the processes, two calls on one advisory-lock id are never both past
    the acquisition. *)
Theorem withLock_mutual_exclusion :
  (∀ s tid1 tid2 t1 t2 lock,
     reachable lock_value lock_name s →
     tasks s !! tid1 = Some t1 → tasks s !! tid2 = Some t2 →
     task_call t1 = WithLock lock → task_call t2 = WithLock lock →
     task_pid t1 = task_pid t2 →
     in_callback t1 = true → in_callback t2 = true →
     tid1 = tid2)
  ∧ (∀ lock1 lock2 pid,
       lock_name lock1 ≠ lock_name lock2 → lock_value lock1 ≠ lock_value lock2 →
       ∃ s t1 t2,
         reachable lock_value lock_name s
         ∧ tasks s !! 0 = Some t1 ∧ tasks s !! 1 = Some t2
         ∧ task_pid t1 = pid ∧ task_pid t2 = pid
         ∧ task_call t1 = WithLock lock1 ∧ task_call t2 = WithLock lock2
         ∧ in_callback t1 = true ∧ in_callback t2 = true)
  ∧ (∀ s tid1 tid2 t1 t2 c1 c2,
       reachable lock_value lock_name s →
       tasks s !! tid1 = Some t1 → tasks s !! tid2 = Some t2 →
       past_acquisition t1 = Some c1 → past_acquisition t2 = Some c2 →
       lock_value (lock_of (task_call t1)) = lock_value (lock_of (task_call t2)) →
       tid1 = tid2).
Proof.
  split; [| split].
  - intros s tid1 tid2 t1 t2 lock Hs Ht1 Ht2 Hc1 Hc2 Hpid Hin1 Hin2.
    eapply callbacks_exclusive; try done.
    unfold key_of. by rewrite Hc1, Hc2, Hpid.
  - intros lock1 lock2 pid Hname Hvalue.
    eexists _, {| task_pid := pid; task_call := WithLock lock1;
                  task_pc := InCallback (pid, 0) : Pc R |},
               {| task_pid := pid; task_call := WithLock lock2;
                  task_pc := InCallback (pid, 1) : Pc R |}.
    split.
    + eapply reachable_run; [eapply reachable_run; [eapply reachable_run |] |].
      * apply reachable_boot.
      * by instantiate (2 := [Invoke 0 pid (WithLock lock1);
                              Invoke 1 pid (WithLock lock2)]).
      * apply (enter_callback _ 0 pid lock1 0); simpl;
          [by rewrite lookup_insert_ne, lookup_insert_eq | set_solver.. | done].
      * apply (enter_callback _ 1 pid lock2 1); simpl;
          [ by rewrite lookup_insert_ne, lookup_insert_eq
          | set_solver | set_solver | by rewrite lookup_insert_ne ].
    + simpl. rewrite lookup_insert_ne, lookup_insert_eq by done.
      rewrite lookup_insert_eq. done.
  - intros s tid1 tid2 t1 t2 c1 c2 Hs Ht1 Ht2 Hp1 Hp2 Hid.
    by eapply holders_exclusive.
Qed.

End ExclusionFacts.

(** ** A call alone, move by move *)

Section MoveByMove.

Variables DatabaseLock R : Type.
Variable lock_value : DatabaseLock → Z.
Variable lock_name : DatabaseLock → string.

Implicit Types (t : Task DatabaseLock R) (s : System DatabaseLock R).

Local Arguments run : simpl never.
Local Arguments fire : simpl never.

Lemma fire_invoke s tid pid (call : Call DatabaseLock) :
  tasks s !! tid = None →
  fire lock_value lock_name (Invoke tid pid call) s
  = Some {| world := world s;
            tasks := <[tid := {| task_pid := pid; task_call := call;
                                 task_pc := Called |}]> (tasks s) |}.
Proof. intros Hfresh. unfold fire. by rewrite Hfresh. Qed.

(** A [withLock] call that exits when run alone is the run of its eight
    moves, the callback settling with its outcome. *)
Lemma withLock_move_by_move s tid pid slot lock (result r : Result R) w' :
  tasks s !! tid = None →
  withLock lock_value lock_name pid slot lock (λ w, Exited result w) (world s)
    = Exited r w' →
  run lock_value lock_name
    [Invoke tid pid (WithLock lock);
     Do tid Resume; Do tid (Connect slot); Do tid Resume;
     Do tid (Settle result);
     Do tid Resume; Do tid Resume; Do tid Resume] s
  = Some {| world := w';
            tasks := <[tid := {| task_pid := pid; task_call := WithLock lock;
                                 task_pc := Exit r |}]> (tasks s) |}.
Proof.
  intros Hfresh
    (Hkey & Hconn & w_body & w_after & Hlock & [= <- <-] & ->)%withLock_Exited.
  rewrite run_cons, fire_invoke by done. simpl.
  rewrite run_cons. erewrite fire_do; [| simpl; apply lookup_insert_eq |]; last first.
  { unfold next. simpl. by rewrite decide_False. }
  simpl. rewrite run_cons.
  erewrite fire_do; [| simpl; apply lookup_insert_eq |]; last first.
  { unfold next. simpl. by rewrite decide_False. }
  simpl. rewrite run_cons.
  erewrite fire_do; [| simpl; apply lookup_insert_eq |]; last first.
  { unfold next. simpl. by rewrite Hlock. }
  simpl. rewrite run_cons.
  erewrite fire_do; [| simpl; apply lookup_insert_eq | done].
  simpl. rewrite run_cons.
  erewrite fire_do; [| simpl; apply lookup_insert_eq | done].
  simpl. rewrite run_cons.
  erewrite fire_do; [| simpl; apply lookup_insert_eq | done].
  simpl. rewrite run_cons.
  erewrite fire_do; [| simpl; apply lookup_insert_eq | done].
  simpl. by rewrite !insert_insert_eq.
Qed.

(** C9, as amended: while the mutex key of the lock is busy, [wait] is left
    waiting.  Once it is free, [wait] takes the key itself: after its first
    move the key is busy, the call is the one inside the mutex and a
    [withLock] of the same process on the lock cannot enter, the pool and
    the advisory locks being as before; its second move frees the key and
    the call has returned, the world being as it was. *)
Theorem wait_takes_the_mutex s tid pid lock :
  tasks s !! tid = None →
  let w := world s in
  let called :=
    {| world := w;
       tasks := <[tid := {| task_pid := pid; task_call := WaitFor lock;
                            task_pc := Called |}]> (tasks s) |} in
  ((pid, lock_name lock) ∈ busy w →
   wait lock_name pid lock w = Waiting
   ∧ fire lock_value lock_name (Do tid Resume) called = None)
  ∧ (((pid, lock_name lock) ∉ busy w) →
     wait lock_name pid lock w = Exited (Ok tt) w
     ∧ ∃ inside,
         run lock_value lock_name [Invoke tid pid (WaitFor lock); Do tid Resume] s
           = Some inside
         ∧ isBusy lock_name pid lock (world inside) = true
         ∧ (∃ t, tasks inside !! tid = Some t ∧ in_mutex t = true)
         ∧ next lock_value lock_name
             {| task_pid := pid; task_call := WithLock lock;
                task_pc := Called : Pc R |}
             Resume (world inside) = None
         ∧ checked_out (world inside) = checked_out w
         ∧ advisory (world inside) = advisory w
         ∧ run lock_value lock_name [Do tid Resume] inside
           = Some {| world := w;
                     tasks := <[tid := {| task_pid := pid; task_call := WaitFor lock;
                                          task_pc := Woken |}]> (tasks s) |}).
Proof.
  intros Hfresh w called. split.
  - intros Hbusy. split; [by apply wait_outcome |].
    unfold fire, called. simpl. rewrite lookup_insert_eq. simpl.
    unfold next. simpl. by rewrite decide_True.
  - intros Hfree. split; [by apply wait_outcome |].
    eexists. split.
    { rewrite run_cons, fire_invoke by done. simpl. rewrite run_cons.
      erewrite fire_do; [| simpl; apply lookup_insert_eq |]; last first.
      { unfold next. simpl. by rewrite decide_False. }
      reflexivity. }
    simpl. split.
    { unfold isBusy, Seq.asyncLock_isBusy. simpl.
      apply bool_decide_eq_true. set_solver. }
    split; [eexists; split; [apply lookup_insert_eq | done] |].
    split; [unfold next; simpl; rewrite decide_True; [done | set_solver] |].
    do 2 (split; [done |]).
    rewrite run_cons.
    erewrite fire_do; [| simpl; apply lookup_insert_eq | done].
    simpl. rewrite !insert_insert_eq.
    fold w. by rewrite (WorldFacts.free_take_key pid (lock_name lock) w Hfree).
Qed.

End MoveByMove.

(** ** Worked examples on the sample locks *)



(** C3 as stated fails: on the idle world nobody holds the Migrations lock,
    and a probe by process 0 answers [true]; when it has returned, the
    session of the connection it used holds the lock, and the same probe by
    process 1 answers [false]. *)
Lemma tryLock_keeps_the_lock :
  ∃ w',
    tryLock SampleLocks.lock_value 0 0 SampleLocks.Migrations idle_world
      = Exited (Ok true) w'
    ∧ advisory idle_world !! 200%Z = None
    ∧ advisory w' !! 200%Z = Some ((0, 0), 1%positive)
    ∧ holds w' 200 (0, 0) = 1
    ∧ checked_out w' = ∅
    ∧ tryLock SampleLocks.lock_value 1 0 SampleLocks.Migrations w'
      = Exited (Ok false) w'.
Proof. eexists. repeat split; vm_compute; reflexivity. Qed.

(** C9 as stated fails: on the idle system, one move into [wait] on the
    Migrations lock and the call holds the mutex: the key is busy, and a
    [withLock] on the same lock in the same process cannot enter. *)
Lemma wait_holds_the_mutex :
  ∃ inside : System SampleLocks.NamedLock nat,
    run SampleLocks.lock_value SampleLocks.lock_name
      [Invoke 0 0 (WaitFor SampleLocks.Migrations); Do 0 Resume;
       Invoke 1 0 (WithLock SampleLocks.Migrations)] boot
      = Some inside
    ∧ tasks inside !! 0
      = Some {| task_pid := 0; task_call := WaitFor SampleLocks.Migrations;
                task_pc := InMutex |}
    ∧ isBusy SampleLocks.lock_name 0 SampleLocks.Migrations (world inside) = true
    ∧ fire SampleLocks.lock_value SampleLocks.lock_name (Do 1 Resume) inside = None.
Proof. eexists. repeat split; vm_compute; reflexivity. Qed.

(** A [wait] on the Library lock from the idle system. *)
Lemma wait_takes_the_mutex_witness :
  let s : System SampleLocks.NamedLock nat := boot in
  tasks s !! 7 = None
  ∧ ∃ inside,
      run SampleLocks.lock_value SampleLocks.lock_name
        [Invoke 7 0 (WaitFor SampleLocks.Library); Do 7 Resume] s = Some inside
      ∧ isBusy SampleLocks.lock_name 0 SampleLocks.Library (world inside) = true
      ∧ (∃ t, tasks inside !! 7 = Some t ∧ in_mutex t = true)
      ∧ next SampleLocks.lock_value SampleLocks.lock_name
          {| task_pid := 0; task_call := WithLock SampleLocks.Library;
             task_pc := Called : Pc nat |}
          Resume (world inside) = None
      ∧ checked_out (world inside) = checked_out (world s)
      ∧ advisory (world inside) = advisory (world s)
      ∧ run SampleLocks.lock_value SampleLocks.lock_name [Do 7 Resume] inside
        = Some {| world := world s;
                  tasks := <[7 := {| task_pid := 0;
                                     task_call := WaitFor SampleLocks.Library;
                                     task_pc := Woken |}]> (tasks s) |}.
Proof.
  intros s. split; [reflexivity |].
  refine (proj2 (proj2 (wait_takes_the_mutex SampleLocks.NamedLock nat
                          SampleLocks.lock_value SampleLocks.lock_name
                          s 7 0 SampleLocks.Library eq_refl) _)).
  apply not_elem_of_empty.
Defined.

(** While a call of process 0 runs its callback under the Migrations lock,
    a second call of process 0 on that lock cannot enter the mutex. *)
Example second_call_waits_for_the_mutex :
  ∃ s : System SampleLocks.NamedLock nat,
    run SampleLocks.lock_value SampleLocks.lock_name
      [Invoke 0 0 (WithLock SampleLocks.Migrations);
       Invoke 1 0 (WithLock SampleLocks.Migrations);
       Do 0 Resume; Do 0 (Connect 0); Do 0 Resume] boot = Some s
    ∧ (in_callback <$> tasks s !! 0) = Some true
    ∧ fire SampleLocks.lock_value SampleLocks.lock_name (Do 1 Resume) s = None.
Proof. eexists. repeat split; vm_compute; reflexivity. Qed.

(** While a call of process 0 runs its callback under the Migrations lock,
    a call of process 1 on that lock gets its mutex and its connection but
    not the advisory lock, and its probe answers [false]; once the call of
    process 0 has released the lock, the call of process 1 gets in. *)
Example other_process_waits_for_the_lock :
  ∃ s s' : System SampleLocks.NamedLock nat,
    run SampleLocks.lock_value SampleLocks.lock_name
      [Invoke 0 0 (WithLock SampleLocks.Migrations);
       Invoke 1 1 (WithLock SampleLocks.Migrations);
       Do 0 Resume; Do 0 (Connect 0); Do 0 Resume;
       Do 1 Resume; Do 1 (Connect 0)] boot = Some s
    ∧ fire SampleLocks.lock_value SampleLocks.lock_name (Do 1 Resume) s = None
    ∧ tryLock SampleLocks.lock_value 1 1 SampleLocks.Migrations (world s)
      = Exited (Ok false) (world s)
    ∧ run SampleLocks.lock_value SampleLocks.lock_name
        [Do 0 (Settle (Ok 7)); Do 0 Resume; Do 1 Resume] s = Some s'
    ∧ (in_callback <$> tasks s' !! 1) = Some true.
Proof. do 2 eexists. repeat split; vm_compute; reflexivity. Qed.

(** In the state where the call of process 0 runs its callback under the
    Migrations lock and a second call of process 0 has been made, any call
    of process 0 whose callback runs under that lock is that first call. *)
Lemma withLock_mutual_exclusion_witness :
  let first_call : Task SampleLocks.NamedLock nat :=
    {| task_pid := 0; task_call := WithLock SampleLocks.Migrations;
       task_pc := InCallback (0, 0) |} in
  let schedule :=
    [Invoke 0 0 (WithLock SampleLocks.Migrations);
     Invoke 1 0 (WithLock SampleLocks.Migrations);
     Do 0 Resume; Do 0 (Connect 0); Do 0 Resume] in
  ∃ s : System SampleLocks.NamedLock nat,
    run SampleLocks.lock_value SampleLocks.lock_name schedule boot = Some s
    ∧ tasks s !! 0 = Some first_call
    ∧ in_callback first_call = true
    ∧ ∀ tid2 t2,
        tasks s !! tid2 = Some t2 →
        task_call t2 = WithLock SampleLocks.Migrations →
        task_pid t2 = 0 →
        in_callback t2 = true →
        0 = tid2.
Proof.
  intros first_call schedule. eexists.
  split; [vm_compute; reflexivity |].
  split; [vm_compute; reflexivity |].
  split; [reflexivity |].
  intros tid2 t2 Ht2 Hcall Hpid Hin.
  eapply (proj1 (withLock_mutual_exclusion SampleLocks.NamedLock nat
                   SampleLocks.lock_value SampleLocks.lock_name)
            _ 0 tid2 first_call t2 SampleLocks.Migrations).
  - exists schedule. vm_compute. reflexivity.
  - vm_compute. reflexivity.
  - exact Ht2.
  - reflexivity.
  - exact Hcall.
  - symmetry. exact Hpid.
  - reflexivity.
  - exact Hin.
Defined.

(** * More of the repository *)

(** ** Reindexing under a kind without an index statement *)

Section ReindexFacts.

Variable index_value : VectorIndex → string.
Variable this : DatabaseRepository.

(** X1: under an active kind [createVectorIndex] has no statement for, a
    [reindex] that found its table and a valid dimensionality has already
    sent the drop of the index on the shared handle, outside the
    transaction, and both retypes inside it when the failure comes: the
    transaction is rolled back, the configuration error reaches the caller,
    and no statement creating an index was sent. *)
Theorem reindex_unsupported_kind
    (index : VectorIndex) (table : string) (d : Z) (name : string) :
  vectorExtension this = OtherExtension name →
  truthy (getIndexTable index_value this index) = Some table →
  getDimSize this table = Ok d →
  Effect.run (reindex index_value this index) =
    (Err (UnsupportedVectorExtension (OtherExtension name)),
     [Logged LogInfo ("Reindexing " +:+ index_value index);
      Begin 0;
      Execute OnDb ("DROP INDEX IF EXISTS " +:+ index_value index);
      Execute (OnTx 0)
        ("ALTER TABLE " +:+ table +:+ " ALTER COLUMN embedding SET DATA TYPE real[]");
      Execute (OnTx 0) (retype_statement table "" d);
      Rollback 0])
  ∧ (OnDb, "DROP INDEX IF EXISTS " +:+ index_value index)
      ∈ statements (Effect.run (reindex index_value this index)).2
  ∧ length (statements (Effect.run (reindex index_value this index)).2) = 3.
Proof.
  intros Hkind Htable Hd. unfold Effect.run.
  rewrite (reindex_found index_value this index table Effect.start Htable), Hd.
  rewrite Hkind. simpl. split; [done |]. split; [| done].
  apply list_elem_of_here.
Qed.

End ReindexFacts.

(** The CLIP index, 512 dimensions, under a kind named [pgvecto]. *)
Lemma reindex_unsupported_kind_witness :
  let this := {| vectorExtension := OtherExtension "pgvecto";
                 db := Sample.catalog "pgvecto" "0.1.0" "0.1.1" [512%Z] |} in
  truthy (getIndexTable Sample.index_value this CLIP) = Some "smart_search"
  ∧ getDimSize this "smart_search" = Ok 512%Z
  ∧ Effect.run (Sample.reindex this CLIP) =
      (Err (UnsupportedVectorExtension (OtherExtension "pgvecto")),
       [Logged LogInfo "Reindexing clip_index";
        Begin 0;
        Execute OnDb "DROP INDEX IF EXISTS clip_index";
        Execute (OnTx 0)
          "ALTER TABLE smart_search ALTER COLUMN embedding SET DATA TYPE real[]";
        Execute (OnTx 0) (retype_statement "smart_search" "" 512);
        Rollback 0]).
Proof.
  split; [reflexivity |]. split; [reflexivity |].
  exact (proj1 (reindex_unsupported_kind Sample.index_value
                  {| vectorExtension := OtherExtension "pgvecto";
                     db := Sample.catalog "pgvecto" "0.1.0" "0.1.1" [512%Z] |}
                  CLIP "smart_search" 512%Z "pgvecto" eq_refl eq_refl eq_refl)).
Defined.

(** ** Drift detection, further *)

Lemma needs_rebuild_absent
    (pg_indexes : list IndexRow) (names : list string) (keyword name : string) :
  (∀ index, index ∈ pg_indexes → indexname index ≠ name) →
  needs_rebuild (select_pg_indexes pg_indexes names) keyword name = true.
Proof.
  intros Hnone. unfold needs_rebuild.
  assert (find_row (select_pg_indexes pg_indexes names) name = None) as ->; [| done].
  apply find_row_None. intros index Hin. apply Hnone.
  unfold select_pg_indexes in Hin. by apply list_elem_of_filter in Hin as [_ ?].
Qed.

(** X2: a requested name no live index carries is flagged, whatever else
    the catalog holds; on a database without indexes every requested name
    is flagged, in particular. *)
Theorem shouldReindex_absent
    (vectorExtension : DatabaseExtension) (keyword : string)
    (pg_indexes : list IndexRow) (names : list string) :
  reindex_keyword vectorExtension = Ok keyword →
  (∀ index name, index ∈ pg_indexes → name ∈ names → indexname index ≠ name) →
  shouldReindex vectorExtension pg_indexes names = Ok (replicate (length names) true)
  ∧ shouldReindex vectorExtension [] names = Ok (replicate (length names) true).
Proof.
  intros Hk Hnone.
  assert (∀ rows,
            (∀ index name, index ∈ rows → name ∈ names → indexname index ≠ name) →
            shouldReindex vectorExtension rows names
            = Ok (replicate (length names) true)) as Hall.
  { intros rows Hrows. unfold shouldReindex. rewrite Hk. f_equal.
    apply list_eq_same_length with (length names);
      [apply length_replicate | apply List.length_map |].
    intros i flag flag' _ Hflag Hflag'.
    apply lookup_replicate in Hflag' as [-> _].
    apply list_lookup_fmap_Some in Hflag as (name & -> & Hname).
    apply needs_rebuild_absent. intros index Hin.
    eapply Hrows; [done |]. by eapply list_elem_of_lookup_2. }
  split; [by apply Hall |].
  apply Hall. intros index name Hin. by apply elem_of_nil in Hin.
Qed.

Lemma shouldReindex_absent_witness :
  shouldReindex VECTORCHORD
    [{| indexdef := "CREATE UNIQUE INDEX users_pkey ON users USING btree (id)";
        indexname := "users_pkey" |}]
    ["clip_index"; "face_index"]
  = Ok [true; true].
Proof.
  refine (proj1 (shouldReindex_absent VECTORCHORD "using vchordrq" _
                   ["clip_index"; "face_index"] eq_refl _)).
  intros index name ->%list_elem_of_singleton Hname. simpl. intros <-.
  set_solver.
Defined.

Lemma needs_rebuild_case
    (rows1 rows2 : list IndexRow) (names : list string) (keyword name : string) :
  Forall2 (λ a b, indexname a = indexname b
                  ∧ Str.toLowerCase (indexdef a) = Str.toLowerCase (indexdef b))
          rows1 rows2 →
  needs_rebuild (select_pg_indexes rows1 names) keyword name
  = needs_rebuild (select_pg_indexes rows2 names) keyword name.
Proof.
  unfold needs_rebuild, find_row, select_pg_indexes.
  induction 1 as [|a b rows1 rows2 [Hname Hdef] _ IH]; [done |].
  rewrite !filter_cons, <- Hname.
  case_decide; [| done]. simpl. rewrite <- Hname.
  case_bool_decide; [by rewrite Hdef | done].
Qed.

(** X3: the check does not see the letter case of a live definition: two
    catalogs that list, row by row, the same index names with definitions
    equal once lower-cased get the same answer, under every kind. *)
Theorem shouldReindex_case_insensitive
    (vectorExtension : DatabaseExtension) (rows1 rows2 : list IndexRow)
    (names : list string) :
  Forall2 (λ a b, indexname a = indexname b
                  ∧ Str.toLowerCase (indexdef a) = Str.toLowerCase (indexdef b))
          rows1 rows2 →
  shouldReindex vectorExtension rows1 names
  = shouldReindex vectorExtension rows2 names.
Proof.
  intros Hrows. unfold shouldReindex.
  destruct (reindex_keyword vectorExtension) as [keyword|]; [| done].
  f_equal. apply map_ext. intros name. by apply needs_rebuild_case.
Qed.

Lemma shouldReindex_case_insensitive_witness :
  shouldReindex VECTOR
    [{| indexdef := "CREATE INDEX clip_index ON smart_search USING HNSW (embedding vector_cosine_ops)";
        indexname := "clip_index" |}]
    ["clip_index"]
  = shouldReindex VECTOR
      [{| indexdef := "create index clip_index on smart_search using hnsw (embedding vector_cosine_ops)";
          indexname := "clip_index" |}]
      ["clip_index"].
Proof.
  apply (shouldReindex_case_insensitive VECTOR).
  repeat constructor.
Defined.

(** X4: an index whose live definition is the statement [createVectorIndex]
    builds under the active kind is not flagged: the keyword the check
    looks for under a kind is the access method that kind's statement
    names. *)
Theorem shouldReindex_own_statement
    (vectorExtension : DatabaseExtension) (tableName indexName statement : string)
    (pg_indexes : list IndexRow) (row : IndexRow) :
  createVectorIndex vectorExtension tableName indexName = Ok statement →
  find_row pg_indexes indexName = Some row →
  indexdef row = statement →
  shouldReindex vectorExtension pg_indexes [indexName] = Ok [false].
Proof.
  intros Hstatement Hrow Hdef. unfold shouldReindex.
  destruct (reindex_keyword vectorExtension) as [keyword|e] eqn:Hk;
    [| by destruct vectorExtension].
  simpl. unfold needs_rebuild.
  rewrite find_row_select, Hrow, Hdef.
  by rewrite (createVectorIndex_keyword _ _ _ _ _ Hstatement Hk).
Qed.

Lemma shouldReindex_own_statement_witness :
  ∃ statement,
    createVectorIndex VECTORS "face_search" "face_index" = Ok statement
    ∧ shouldReindex VECTORS
        [{| indexdef := "CREATE UNIQUE INDEX users_pkey ON users USING btree (id)";
            indexname := "users_pkey" |};
         {| indexdef := statement; indexname := "face_index" |}]
        ["face_index"]
      = Ok [false].
Proof.
  eexists. split; [reflexivity |].
  eapply (shouldReindex_own_statement VECTORS "face_search" "face_index");
    reflexivity.
Defined.

(** ** Locks, one call after the other *)

Section NestingFacts.

Context {DatabaseLock : Type}.
Variable lock_value : DatabaseLock → Z.
Variable lock_name : DatabaseLock → string.

(** While another session holds the advisory lock, [withLock] is left
    waiting, for the lock if not before. *)
Lemma withLock_held {R} (pid : Pid) (slot : nat) (lock : DatabaseLock)
    (callback : Seq.P R) (w : World) (holder : Conn) (n : positive) :
  advisory w !! lock_value lock = Some (holder, n) →
  holder ≠ (pid, slot) →
  withLock lock_value lock_name pid slot lock callback w = Waiting.
Proof.
  intros Hheld Hne.
  unfold withLock, Seq.asyncLock_acquire, Seq.connection_execute, Seq.try_finally,
    Seq.bind, acquireLock.
  case_decide; [done |]. case_decide; [done |].
  assert (Pg.advisory_lock (lock_value lock) (pid, slot)
            (check_out (pid, slot) (take_key pid (lock_name lock) w)) = None) as ->;
    [| done].
  apply PgFacts.advisory_lock_None. by exists holder, n.
Qed.

(** X5: [withLock] is not re-entrant.  A callback that itself calls
    [withLock], or [wait], on the same lock from the same process never
    gets in, the key being the outer call's until the callback settles: the
    outer call is left waiting from every state. *)
Theorem withLock_not_reentrant {R} (pid : Pid) (slot slot' : nat)
    (lock : DatabaseLock) (callback : Seq.P R) (w : World) :
  withLock lock_value lock_name pid slot lock
    (withLock lock_value lock_name pid slot' lock callback) w = Waiting
  ∧ withLock lock_value lock_name pid slot lock
      (Seq.bind (wait lock_name pid lock) (λ _, callback)) w = Waiting.
Proof.
  assert (∀ inner : Seq.P R,
            (∀ w1, (pid, lock_name lock) ∈ busy w1 → inner w1 = Waiting) →
            withLock lock_value lock_name pid slot lock inner w = Waiting) as Houter.
  { intros inner Hinner.
    unfold withLock at 1.
    unfold Seq.asyncLock_acquire, Seq.connection_execute, Seq.try_finally,
      Seq.bind, acquireLock.
    case_decide; [done |]. case_decide; [done |].
    destruct (Pg.advisory_lock _ _ _) as [w1|] eqn:Hlock; [| done].
    destruct (PgFacts.advisory_lock_Some _ _ _ _ Hlock) as (Hb & _).
    rewrite Hinner; [done |]. rewrite Hb. simpl. set_solver. }
  split; apply Houter; intros w1 Hbusy.
  - unfold withLock, Seq.asyncLock_acquire. by rewrite decide_True.
  - unfold Seq.bind, wait, Seq.asyncLock_acquire. by rewrite decide_True.
Qed.

(** X6: a probe that answered [true] keeps every other session out, no
    unlock being sent by [tryLock]: on the world it leaves, [withLock] on
    that lock through any other connection, of this or another process, is
    left waiting whatever its callback, and a probe through any other
    connection that is free answers [false] and changes nothing. *)
Theorem tryLock_blocks_others (pid : Pid) (slot : nat) (lock : DatabaseLock)
    (w w' : World) :
  tryLock lock_value pid slot lock w = Exited (Ok true) w' →
  ∀ pid' slot',
    (pid', slot') ≠ (pid, slot) →
    (∀ R (callback : Seq.P R),
       withLock lock_value lock_name pid' slot' lock callback w' = Waiting)
    ∧ (((pid', slot') ∉ checked_out w') →
       tryLock lock_value pid' slot' lock w' = Exited (Ok false) w').
Proof.
  unfold tryLock at 1.
  unfold Seq.connection_execute, acquireTryLock, Pg.try_advisory_lock.
  case_decide as Hconn; [done |].
  destruct (Pg.advisory_lock _ _ _) as [w1|] eqn:Hlock; [| done].
  intros [= <-] pid' slot' Hother.
  destruct (PgFacts.advisory_lock_Some _ _ _ _ Hlock) as (_ & _ & _ & _ & _ & [n Hn]).
  split.
  - intros R callback. by eapply withLock_held.
  - intros Hfree. unfold tryLock, Seq.connection_execute, acquireTryLock,
      Pg.try_advisory_lock.
    rewrite decide_False by done.
    assert (Pg.advisory_lock (lock_value lock) (pid', slot')
              (check_out (pid', slot') (check_in (pid, slot) w1)) = None) as ->.
    { apply PgFacts.advisory_lock_None. by exists (pid, slot), n. }
    by rewrite WorldFacts.check_in_out.
Qed.

(** X8: [withLock] calls on two different locks nest, each on a connection
    of its own: with both keys, both connections and both advisory locks
    free, the inner callback runs with both keys busy, both connections
    checked out and both locks held once, and when it leaves that state
    alone the outer call returns its outcome and the world is as before. *)
Theorem withLock_nested {R} (pid : Pid) (slot1 slot2 : nat)
    (lock1 lock2 : DatabaseLock) (callback : Seq.P R) (r : Result R) (w : World) :
  lock_name lock1 ≠ lock_name lock2 →
  lock_value lock1 ≠ lock_value lock2 →
  slot1 ≠ slot2 →
  ((pid, lock_name lock1) ∉ busy w) → ((pid, lock_name lock2) ∉ busy w) →
  ((pid, slot1) ∉ checked_out w) → ((pid, slot2) ∉ checked_out w) →
  advisory w !! lock_value lock1 = None → advisory w !! lock_value lock2 = None →
  callback
    {| busy := {[(pid, lock_name lock2)]} ∪ ({[(pid, lock_name lock1)]} ∪ busy w);
       checked_out := {[(pid, slot2)]} ∪ ({[(pid, slot1)]} ∪ checked_out w);
       advisory := <[lock_value lock2 := ((pid, slot2), 1%positive)]>
                     (<[lock_value lock1 := ((pid, slot1), 1%positive)]> (advisory w)) |}
  = Exited r
    {| busy := {[(pid, lock_name lock2)]} ∪ ({[(pid, lock_name lock1)]} ∪ busy w);
       checked_out := {[(pid, slot2)]} ∪ ({[(pid, slot1)]} ∪ checked_out w);
       advisory := <[lock_value lock2 := ((pid, slot2), 1%positive)]>
                     (<[lock_value lock1 := ((pid, slot1), 1%positive)]> (advisory w)) |} →
  withLock lock_value lock_name pid slot1 lock1
    (withLock lock_value lock_name pid slot2 lock2 callback) w
  = Exited r w.
Proof.
  intros Hname Hvalue Hslot Hkey1 Hkey2 Hconn1 Hconn2 Hfree1 Hfree2 Hcallback.
  set (w1 := {| busy := {[(pid, lock_name lock1)]} ∪ busy w;
                checked_out := {[(pid, slot1)]} ∪ checked_out w;
                advisory := <[lock_value lock1 := ((pid, slot1), 1%positive)]>
                              (advisory w) |}).
  assert (Pg.advisory_lock (lock_value lock1) (pid, slot1)
            (check_out (pid, slot1) (take_key pid (lock_name lock1) w)) = Some w1)
    as Hlock1.
  { unfold Pg.advisory_lock. simpl. by rewrite Hfree1. }
  assert (withLock lock_value lock_name pid slot2 lock2 callback w1 = Exited r w1)
    as Hinner.
  { apply withLock_Exited. simpl.
    split; [set_solver |]. split; [set_solver |].
    eexists _, _. split; [| split; [exact Hcallback |]].
    - unfold Pg.advisory_lock. simpl.
      by rewrite lookup_insert_ne, Hfree2 by done.
    - unfold Pg.advisory_unlock. simpl.
      rewrite lookup_insert_eq, decide_True by done. simpl.
      rewrite delete_insert_eq, delete_id
        by (by rewrite lookup_insert_ne by done).
      unfold free_key, check_in, w1. simpl. f_equal; set_solver. }
  apply withLock_Exited.
  split; [done |]. split; [done |].
  exists w1, w1. split; [done |]. split; [done |].
  rewrite (PgFacts.advisory_unlock_lock _ _ _ _ Hlock1).
  by rewrite WorldFacts.check_in_out, WorldFacts.free_take_key.
Qed.

End NestingFacts.

(** A probe of the Migrations lock by process 0 on the idle world, then
    calls through a connection of process 1. *)
Lemma tryLock_blocks_others_witness :
  let held :=
    {| busy := ∅; checked_out := ∅;
       advisory := {[ 200%Z := ((0, 0), 1%positive) ]} |} in
  tryLock SampleLocks.lock_value 0 0 SampleLocks.Migrations idle_world
    = Exited (Ok true) held
  ∧ (∀ R (callback : Seq.P R),
       withLock SampleLocks.lock_value SampleLocks.lock_name 1 0
         SampleLocks.Migrations callback held = Waiting)
  ∧ tryLock SampleLocks.lock_value 1 0 SampleLocks.Migrations held
    = Exited (Ok false) held.
Proof.
  intros held.
  assert (tryLock SampleLocks.lock_value 0 0 SampleLocks.Migrations idle_world
          = Exited (Ok true) held) as Hprobe by (vm_compute; reflexivity).
  split; [exact Hprobe |].
  destruct (tryLock_blocks_others SampleLocks.lock_value SampleLocks.lock_name
              0 0 SampleLocks.Migrations idle_world held Hprobe 1 0)
    as [Hwith Htry]; [done |].
  split; [exact Hwith |]. apply Htry. apply not_elem_of_empty.
Defined.

(** The Library lock on the idle world: taken and given back by a call of
    process 0, then probed by process 1. *)
Lemma tryLock_after_withLock_witness :
  let callback : Seq.P nat := λ w, Exited (Ok 7) w in
  let call :=
    withLock SampleLocks.lock_value SampleLocks.lock_name 0 0
      SampleLocks.Library callback in
  advisory idle_world !! 1337%Z = None
  ∧ call idle_world = Exited (Ok 7) idle_world
  ∧ advisory idle_world !! 1337%Z = None
  ∧ ∃ w'', tryLock SampleLocks.lock_value 1 0 SampleLocks.Library idle_world
           = Exited (Ok true) w''
           ∧ advisory w'' !! 1337%Z = Some ((1, 0), 1%positive).
Proof.
  intros callback call.
  assert (call idle_world = Exited (Ok 7) idle_world) as Hcall
    by (vm_compute; reflexivity).
  split; [reflexivity |]. split; [exact Hcall |].
  refine (tryLock_after_withLock SampleLocks.lock_value SampleLocks.lock_name
            0 0 SampleLocks.Library callback idle_world idle_world (Ok 7) 1 0
            eq_refl _ Hcall _).
  - intros w1 r1 w2 [= _ <-]. reflexivity.
  - apply not_elem_of_empty.
Defined.

(** The Migrations lock around the Library lock, in process 0. *)
Lemma withLock_nested_witness :
  withLock SampleLocks.lock_value SampleLocks.lock_name 0 0 SampleLocks.Migrations
    (withLock SampleLocks.lock_value SampleLocks.lock_name 0 1 SampleLocks.Library
       (λ w, Exited (Ok 7) w)) idle_world
  = Exited (Ok 7) idle_world.
Proof.
  apply (withLock_nested SampleLocks.lock_value SampleLocks.lock_name 0 0 1
           SampleLocks.Migrations SampleLocks.Library (λ w, Exited (Ok 7) w)
           (Ok 7) idle_world);
    first [ done | apply not_elem_of_empty | reflexivity ].
Defined.

(** ** Calls side by side: who owns what *)

Section AccountingFacts.

Variables DatabaseLock R : Type.
Variable lock_value : DatabaseLock → Z.
Variable lock_name : DatabaseLock → string.

Implicit Types (t : Task DatabaseLock R) (s : System DatabaseLock R).
Implicit Types (m : Move R) (pc : Pc R) (w : World).

Lemma finished_outside t :
  finished t = true →
  in_mutex t = false ∧ connection_of t = None ∧ past_acquisition t = None.
Proof.
  destruct t as [p call pc0]. unfold finished, in_mutex, connection_of,
    past_acquisition. simpl.
  by destruct call, pc0.
Qed.

Lemma accounted_boot : accounted lock_name (boot : System DatabaseLock R).
Proof. split; intros x Hx; simpl in Hx; by apply not_elem_of_empty in Hx. Qed.

Lemma accounted_invoke s tid pid call :
  tasks s !! tid = None →
  accounted lock_name s →
  accounted lock_name
    {| world := world s;
       tasks := <[tid := {| task_pid := pid; task_call := call;
                            task_pc := Called |}]> (tasks s) |}.
Proof.
  intros Hfresh [Hb Hc]. split; simpl.
  - intros k (tid' & t & Ht & Hin & Hk)%Hb. exists tid', t.
    rewrite lookup_insert_ne by congruence. done.
  - intros c (tid' & t & Ht & Hhas)%Hc. exists tid', t.
    rewrite lookup_insert_ne by congruence. done.
Qed.

Lemma accounted_move s tid t0 m pc w' :
  tasks s !! tid = Some t0 →
  next lock_value lock_name t0 m (world s) = Some (pc, w') →
  accounted lock_name s →
  accounted lock_name {| world := w'; tasks := <[tid := at_pc t0 pc]> (tasks s) |}.
Proof.
  intros Ht0 Hnext [Hb Hc].
  pose proof (next_mutex _ _ _ _ _ _ _ _ _ Hnext) as Hmutex.
  pose proof (next_connection _ _ _ _ _ _ _ _ _ Hnext) as Hconn.
  assert (key_of lock_name (at_pc t0 pc) = key_of lock_name t0) as Hkey by done.
  (* a task other than the mover, or the mover where it stays inside *)
  assert (∀ k, (∃ tid' t, tasks s !! tid' = Some t ∧ in_mutex t = true
                          ∧ key_of lock_name t = k) →
               (in_mutex (at_pc t0 pc) = in_mutex t0 ∨ k ≠ key_of lock_name t0
                ∨ in_mutex t0 = false) →
               ∃ tid' t, <[tid := at_pc t0 pc]> (tasks s) !! tid' = Some t
                         ∧ in_mutex t = true ∧ key_of lock_name t = k) as Hkeep.
  { intros k (tid' & t & Ht & Hin & Hk) Hwhy.
    destruct (decide (tid' = tid)) as [-> | Hne].
    - assert (t = t0) as -> by congruence.
      exists tid, (at_pc t0 pc). rewrite lookup_insert_eq.
      destruct Hwhy as [Hsame | [Hother | Hout]]; [| done | congruence].
      by rewrite Hsame.
    - exists tid', t. by rewrite lookup_insert_ne. }
  assert (∀ c, (∃ tid' t, tasks s !! tid' = Some t ∧ connection_of t = Some c) →
               (connection_of (at_pc t0 pc) = connection_of t0
                ∨ connection_of t0 ≠ Some c) →
               ∃ tid' t, <[tid := at_pc t0 pc]> (tasks s) !! tid' = Some t
                         ∧ connection_of t = Some c) as Hkeep'.
  { intros c (tid' & t & Ht & Hhas) Hwhy.
    destruct (decide (tid' = tid)) as [-> | Hne].
    - assert (t = t0) as -> by congruence.
      exists tid, (at_pc t0 pc). rewrite lookup_insert_eq.
      destruct Hwhy as [Hsame | Hother]; [| done].
      by rewrite Hsame.
    - exists tid', t. by rewrite lookup_insert_ne. }
  split; simpl.
  - intros k Hk.
    destruct Hmutex as [[Hsame Hin] | [(Hout & Hin & _ & Hnew) | (_ & _ & Hless)]].
    + rewrite Hsame in Hk. apply Hkeep; [by apply Hb | by left].
    + rewrite Hnew in Hk. apply elem_of_union in Hk as [->%elem_of_singleton | Hk].
      * exists tid, (at_pc t0 pc). by rewrite lookup_insert_eq.
      * apply Hkeep; [by apply Hb | by right; right].
    + rewrite Hless in Hk. apply elem_of_difference in Hk as [Hk Hne].
      apply Hkeep; [by apply Hb |]. right; left. set_solver.
  - intros c Hin.
    destruct Hconn as [[Hsame Hhas] | [(c' & Hnone & Hnew & _ & Hmore)
                                      | (c' & Hhad & _ & Hless)]].
    + rewrite Hsame in Hin. apply Hkeep'; [by apply Hc | by left].
    + rewrite Hmore in Hin. apply elem_of_union in Hin as [->%elem_of_singleton | Hin].
      * exists tid, (at_pc t0 pc). by rewrite lookup_insert_eq.
      * apply Hkeep'; [by apply Hc |]. right. by rewrite Hnone.
    + rewrite Hless in Hin. apply elem_of_difference in Hin as [Hin Hne].
      apply Hkeep'; [by apply Hc |]. right. rewrite Hhad. set_solver.
Qed.

Lemma accounted_fire s s' a :
  fire lock_value lock_name a s = Some s' →
  accounted lock_name s → accounted lock_name s'.
Proof.
  destruct a as [tid pid call | tid m]; simpl.
  - destruct (tasks s !! tid) eqn:Hfresh; [done |].
    intros [= <-]. by apply accounted_invoke.
  - destruct (tasks s !! tid) as [t0|] eqn:Ht0; [| done]. simpl.
    destruct (next _ _ t0 m (world s)) as [[pc w']|] eqn:Hnext; [| done]. simpl.
    intros [= <-]. by eapply accounted_move.
Qed.

Lemma accounted_reachable s :
  reachable lock_value lock_name s → accounted lock_name s.
Proof.
  intros [actions Hrun]. revert Hrun.
  generalize (accounted_boot). generalize (boot : System DatabaseLock R).
  induction actions as [|a rest IH]; intros s0 Hs0; simpl.
  - by intros [= <-].
  - destruct (fire _ _ a s0) as [s1|] eqn:Hfire; [| done]. simpl.
    apply IH. by eapply accounted_fire.
Qed.

(** X9: in every state the calls can reach, [isBusy] answers [true] for a
    lock exactly when a [withLock] or [wait] call of the process on a lock
    of that name is inside the mutex: it has entered and not yet left. *)
Theorem isBusy_in_mutex s (pid : Pid) (lock : DatabaseLock) :
  reachable lock_value lock_name s →
  isBusy lock_name pid lock (world s) = true
  ↔ ∃ tid t, tasks s !! tid = Some t
             ∧ task_pid t = pid
             ∧ lock_name (lock_of (task_call t)) = lock_name lock
             ∧ in_mutex t = true.
Proof.
  intros Hs. unfold isBusy, Seq.asyncLock_isBusy. rewrite bool_decide_eq_true.
  split.
  - intros (tid & t & Ht & Hin & Hk)%(busy_owned (accounted_reachable s Hs)).
    exists tid, t. unfold key_of in Hk. by injection Hk as -> ->.
  - intros (tid & t & Ht & <- & <- & Hin).
    by apply (mutex_held (invariant_reachable _ _ _ _ _ Hs) tid t).
Qed.

(** X10: nothing of the mutex table or of the pool outlives the calls: in
    every reachable state where each call made so far has returned, no key
    is busy and no connection is checked out. *)
Theorem finished_no_leak s :
  reachable lock_value lock_name s →
  (∀ tid t, tasks s !! tid = Some t → finished t = true) →
  busy (world s) = ∅ ∧ checked_out (world s) = ∅.
Proof.
  intros [Hb Hc]%accounted_reachable Hdone. split.
  - apply elem_of_equiv_empty_L. intros k (tid & t & Ht & Hin & _)%Hb.
    destruct (finished_outside t (Hdone tid t Ht)) as (Hout & _). congruence.
  - apply elem_of_equiv_empty_L. intros c (tid & t & Ht & Hhas)%Hc.
    destruct (finished_outside t (Hdone tid t Ht)) as (_ & Hnone & _). congruence.
Qed.

(** What a move of a call other than [tryLock] does to the advisory locks:
    nothing, or the lock statement that takes the task past the
    acquisition, or the unlock that takes it back. *)
Lemma next_owned t m w w' pc :
  next lock_value lock_name t m w = Some (pc, w') →
  is_tryLock t = false →
  (advisory w' = advisory w
   ∧ past_acquisition (at_pc t pc) = past_acquisition t)
  ∨ (∃ c, connection_of t = Some c ∧ past_acquisition t = None
          ∧ past_acquisition (at_pc t pc) = Some c
          ∧ Pg.advisory_lock (id_of lock_value t) c w = Some w')
  ∨ (∃ c, past_acquisition t = Some c ∧ past_acquisition (at_pc t pc) = None
          ∧ w' = (Pg.advisory_unlock (id_of lock_value t) c w).2).
Proof.
  destruct t as [p call pc0].
  unfold next, connection_of, past_acquisition, id_of, is_tryLock, at_pc. simpl.
  destruct call, pc0, m; simpl; try done;
    repeat case_decide; try done;
    try (intros [= <- <-] _; simpl; by left).
  - destruct (Pg.advisory_lock _ _ _) as [w1|] eqn:Hlock; [| done].
    intros [= <- <-] _. right; left. by exists c.
  - intros [= <- <-] _. right; right. by exists c.
Qed.

Lemma owned_invoke s tid pid call :
  tasks s !! tid = None →
  advisory_owned lock_value s →
  advisory_owned lock_value
    {| world := world s;
       tasks := <[tid := {| task_pid := pid; task_call := call;
                            task_pc := Called |}]> (tasks s) |}.
Proof.
  intros Hfresh Ho id c n [-> (tid' & t & Ht & Hpast & Hid)]%Ho.
  split; [done |]. exists tid', t. simpl.
  rewrite lookup_insert_ne by congruence. done.
Qed.

Lemma owned_move s tid t0 m pc w' :
  tasks s !! tid = Some t0 →
  next lock_value lock_name t0 m (world s) = Some (pc, w') →
  is_tryLock t0 = false →
  lock_invariant lock_value lock_name s →
  advisory_owned lock_value s →
  advisory_owned lock_value
    {| world := w'; tasks := <[tid := at_pc t0 pc]> (tasks s) |}.
Proof.
  intros Ht0 Hnext Hcall Hinv Ho.
  assert (id_of lock_value (at_pc t0 pc) = id_of lock_value t0) as Hid0 by done.
  (* an owner other than the mover, or the mover where it stays an owner *)
  assert (∀ id c n,
            advisory (world s) !! id = Some (c, n) →
            (past_acquisition (at_pc t0 pc) = past_acquisition t0
             ∨ past_acquisition t0 = None
             ∨ id ≠ id_of lock_value t0) →
            n = 1%positive
            ∧ ∃ tid' t, <[tid := at_pc t0 pc]> (tasks s) !! tid' = Some t
                        ∧ past_acquisition t = Some c
                        ∧ id_of lock_value t = id) as Hkeep.
  { intros id c n [-> (tid' & t & Ht & Hpast & Hid)]%Ho Hwhy.
    split; [done |].
    destruct (decide (tid' = tid)) as [-> | Hne].
    - assert (t = t0) as -> by congruence.
      exists tid, (at_pc t0 pc). rewrite lookup_insert_eq.
      destruct Hwhy as [Hsame | [Hnone | Hother]]; [| congruence | done].
      by rewrite Hsame.
    - exists tid', t. by rewrite lookup_insert_ne. }
  destruct (next_owned _ _ _ _ _ Hnext Hcall)
    as [[Hsame Hpast] | [(c0 & Hhas & Hnone & Hnew & Hlock)
                        | (c0 & Hwas & Hnow & ->)]];
    intros id c n; simpl.
  - rewrite Hsame. intros Hentry. apply Hkeep; [done | by left].
  - assert (advisory w' = <[id_of lock_value t0 := (c0, 1%positive)]>
                            (advisory (world s))) as ->.
    { revert Hlock. unfold Pg.advisory_lock.
      destruct (advisory (world s) !! id_of lock_value t0) as [[holder k]|] eqn:Hentry;
        [| by intros [= <-]].
      case_decide as Hholder; [| done]. subst holder. exfalso.
      destruct (Ho _ _ _ Hentry) as [_ (tid' & t & Ht & Hpast & _)].
      assert (tid = tid') as <-.
      { apply (connection_single Hinv tid tid' t0 t c0); try done.
        by apply past_acquisition_connection. }
      congruence. }
    intros [[<- [= <- <-]] | [Hne Hentry]]%lookup_insert_Some.
    + split; [done |]. exists tid, (at_pc t0 pc). by rewrite lookup_insert_eq.
    + apply Hkeep; [done | by right; left].
  - destruct (advisory_held Hinv tid t0 c0 Ht0 Hwas) as [k Hentry].
    destruct (Ho _ _ _ Hentry) as [-> _].
    unfold Pg.advisory_unlock. rewrite Hentry, decide_True by done. simpl.
    intros [Hne Hold]%lookup_delete_Some.
    apply Hkeep; [done | by right; right].
Qed.

Lemma no_tryLock_fire s s' a :
  fire lock_value lock_name a s = Some s' → no_tryLock s' → no_tryLock s.
Proof.
  destruct a as [tid pid call | tid m]; simpl.
  - destruct (tasks s !! tid) eqn:Hfresh; [done |].
    intros [= <-] Hno tid' t Ht. apply (Hno tid'). simpl.
    rewrite lookup_insert_ne by congruence. done.
  - destruct (tasks s !! tid) as [t0|] eqn:Ht0; [| done]. simpl.
    destruct (next _ _ t0 m (world s)) as [[pc w']|] eqn:Hnext; [| done]. simpl.
    intros [= <-] Hno tid' t Ht.
    destruct (decide (tid' = tid)) as [-> | Hne].
    + assert (t = t0) as -> by congruence.
      apply (Hno tid (at_pc t0 pc)). simpl. by rewrite lookup_insert_eq.
    + apply (Hno tid'). simpl. by rewrite lookup_insert_ne.
Qed.

Lemma owned_fire s s' a :
  fire lock_value lock_name a s = Some s' →
  no_tryLock s →
  lock_invariant lock_value lock_name s →
  advisory_owned lock_value s → advisory_owned lock_value s'.
Proof.
  destruct a as [tid pid call | tid m]; simpl.
  - destruct (tasks s !! tid) eqn:Hfresh; [done |].
    intros [= <-] _ _. by apply owned_invoke.
  - destruct (tasks s !! tid) as [t0|] eqn:Ht0; [| done]. simpl.
    destruct (next _ _ t0 m (world s)) as [[pc w']|] eqn:Hnext; [| done]. simpl.
    intros [= <-] Hno Hinv. eapply owned_move; eauto.
Qed.

Lemma owned_run actions s s' :
  run lock_value lock_name actions s = Some s' →
  no_tryLock s' →
  lock_invariant lock_value lock_name s →
  advisory_owned lock_value s → advisory_owned lock_value s'.
Proof.
  revert s. induction actions as [|a rest IH]; intros s; simpl.
  - by intros [= <-].
  - destruct (fire _ _ a s) as [s1|] eqn:Hfire; [| done]. simpl.
    intros Hrun Hno Hinv Ho.
    assert (no_tryLock s1) as Hno1.
    { clear IH Ho Hinv Hfire. revert s1 Hrun.
      induction rest as [|b rest IH]; intros s1; simpl; [by intros [= <-] |].
      destruct (fire _ _ b s1) as [s2|] eqn:Hfire; [| done]. simpl.
      intros Hrun. eapply no_tryLock_fire; [done |]. by apply IH. }
    eapply IH; [done | done | by eapply invariant_fire |].
    eapply owned_fire; [done | | done | done].
    by eapply no_tryLock_fire.
Qed.

(** X11: as long as no [tryLock] call was made, [withLock] accounts for
    every advisory lock: in every reachable state each lock that is held is
    held once, by the session of a call between its acquisition and its
    release; so when every call has returned, no advisory lock is held. *)
Theorem withLock_leaves_no_lock s :
  reachable lock_value lock_name s →
  no_tryLock s →
  advisory_owned lock_value s
  ∧ ((∀ tid t, tasks s !! tid = Some t → finished t = true) →
     advisory (world s) = ∅).
Proof.
  intros [actions Hrun] Hno.
  assert (advisory_owned lock_value s) as Ho.
  { eapply owned_run; [done | done | apply invariant_boot |].
    intros id c n Hentry. simpl in Hentry. by rewrite lookup_empty in Hentry. }
  split; [done |]. intros Hdone.
  apply map_empty. intros id.
  destruct (advisory (world s) !! id) as [[c n]|] eqn:Hentry; [| done].
  destruct (Ho _ _ _ Hentry) as [_ (tid & t & Ht & Hpast & _)].
  destruct (finished_outside t (Hdone tid t Ht)) as (_ & _ & Hnone). congruence.
Qed.

Local Arguments run : simpl never.
Local Arguments fire : simpl never.

(** X12: the release never waits.  From the point where its callback runs,
    a [withLock] call needs four moves of its own to return: the callback
    settling, the unlock, the return of the connection and the release of
    the key.  Run in a row they take the call to its exit with the
    callback's outcome, its key free and its connection back in the pool;
    and each of them is open to the call in every world, whatever the
    other calls hold. *)
Theorem withLock_release_never_waits s tid t lock c (r : Result R) :
  tasks s !! tid = Some t →
  task_call t = WithLock lock →
  task_pc t = InCallback c →
  ∃ s',
    run lock_value lock_name
      [Do tid (Settle r); Do tid Resume; Do tid Resume; Do tid Resume] s = Some s'
    ∧ tasks s' = <[tid := at_pc t (Exit r)]> (tasks s)
    ∧ world s'
      = free_key (task_pid t) (lock_name lock)
          (check_in c (Pg.advisory_unlock (lock_value lock) c (world s)).2)
    ∧ (key_of lock_name t ∉ busy (world s'))
    ∧ (c ∉ checked_out (world s'))
    ∧ ∀ w,
        is_Some (next lock_value lock_name t (Settle r) w)
        ∧ is_Some (next lock_value lock_name (at_pc t (InFinally c r)) Resume w)
        ∧ is_Some (next lock_value lock_name (at_pc t (Unlocked c r)) Resume w)
        ∧ is_Some (next lock_value lock_name (at_pc t (Disconnected r)) Resume w).
Proof.
  destruct t as [p call pc0]. simpl. intros Ht -> ->.
  eexists. split.
  { rewrite run_cons. erewrite fire_do; [| done | done].
    simpl. rewrite run_cons.
    erewrite fire_do; [| simpl; apply lookup_insert_eq | done].
    simpl. rewrite run_cons.
    erewrite fire_do; [| simpl; apply lookup_insert_eq | done].
    simpl. rewrite run_cons.
    erewrite fire_do; [| simpl; apply lookup_insert_eq | done].
    reflexivity. }
  simpl. split; [by rewrite !insert_insert_eq |]. split; [done |].
  unfold key_of. simpl. split; [set_solver |]. split; [set_solver |].
  intros w. unfold next, at_pc. simpl. by repeat split.
Qed.

End AccountingFacts.

(** A [wait] of process 0 on the Library lock, inside the mutex. *)
Lemma isBusy_in_mutex_witness :
  let schedule := [Invoke 0 0 (WaitFor SampleLocks.Library); Do 0 Resume] in
  ∃ s : System SampleLocks.NamedLock nat,
    run SampleLocks.lock_value SampleLocks.lock_name schedule boot = Some s
    ∧ (isBusy SampleLocks.lock_name 0 SampleLocks.Library (world s) = true
       ↔ ∃ tid t, tasks s !! tid = Some t
                  ∧ task_pid t = 0
                  ∧ SampleLocks.lock_name (lock_of (task_call t))
                    = SampleLocks.lock_name SampleLocks.Library
                  ∧ in_mutex t = true).
Proof.
  intros schedule. eexists.
  split; [vm_compute; reflexivity |].
  apply (isBusy_in_mutex SampleLocks.NamedLock nat
           SampleLocks.lock_value SampleLocks.lock_name).
  exists schedule. vm_compute. reflexivity.
Defined.

(** A whole [withLock] call of process 0 and a whole [tryLock] call of
    process 1. *)
Lemma finished_no_leak_witness :
  let schedule :=
    [Invoke 0 0 (WithLock SampleLocks.Migrations);
     Do 0 Resume; Do 0 (Connect 0); Do 0 Resume; Do 0 (Settle (Ok 7));
     Do 0 Resume; Do 0 Resume; Do 0 Resume;
     Invoke 1 1 (TryLock SampleLocks.Library);
     Do 1 (Connect 0); Do 1 Resume; Do 1 Resume] in
  ∃ s : System SampleLocks.NamedLock nat,
    run SampleLocks.lock_value SampleLocks.lock_name schedule boot = Some s
    ∧ map_Forall (λ _ t, finished t = true) (tasks s)
    ∧ busy (world s) = ∅ ∧ checked_out (world s) = ∅.
Proof.
  intros schedule.
  set (done :=
         <[1 := {| task_pid := 1; task_call := TryLock SampleLocks.Library;
                   task_pc := Answered true |}]>
           (<[0 := {| task_pid := 0; task_call := WithLock SampleLocks.Migrations;
                      task_pc := Exit (Ok 7) |}]> ∅)
         : gmap nat (Task SampleLocks.NamedLock nat)).
  exists {| world := {| busy := ∅; checked_out := ∅;
                        advisory := {[ 1337%Z := ((1, 0), 1%positive) ]} |};
            tasks := done |}.
  split; [vm_compute; reflexivity |].
  assert (map_Forall (λ (_ : nat) (t : Task SampleLocks.NamedLock nat),
                        finished t = true) done) as Hdone.
  { apply (bool_decide_unpack _). vm_compute. exact I. }
  split; [exact Hdone |].
  apply (finished_no_leak SampleLocks.NamedLock nat
           SampleLocks.lock_value SampleLocks.lock_name).
  - exists schedule. vm_compute. reflexivity.
  - exact Hdone.
Defined.

(** A whole [withLock] call and a whole [wait] call of process 0. *)
Lemma withLock_leaves_no_lock_witness :
  let schedule :=
    [Invoke 0 0 (WithLock SampleLocks.Migrations);
     Do 0 Resume; Do 0 (Connect 0); Do 0 Resume; Do 0 (Settle (Ok 7));
     Do 0 Resume; Do 0 Resume; Do 0 Resume;
     Invoke 1 0 (WaitFor SampleLocks.Migrations);
     Do 1 Resume; Do 1 Resume] in
  ∃ s : System SampleLocks.NamedLock nat,
    run SampleLocks.lock_value SampleLocks.lock_name schedule boot = Some s
    ∧ map_Forall (λ _ t, is_tryLock t = false) (tasks s)
    ∧ map_Forall (λ _ t, finished t = true) (tasks s)
    ∧ advisory (world s) = ∅.
Proof.
  intros schedule.
  set (done :=
         <[1 := {| task_pid := 0; task_call := WaitFor SampleLocks.Migrations;
                   task_pc := Woken |}]>
           (<[0 := {| task_pid := 0; task_call := WithLock SampleLocks.Migrations;
                      task_pc := Exit (Ok 7) |}]> ∅)
         : gmap nat (Task SampleLocks.NamedLock nat)).
  exists {| world := idle_world; tasks := done |}.
  split; [vm_compute; reflexivity |].
  assert (map_Forall (λ (_ : nat) (t : Task SampleLocks.NamedLock nat),
                        is_tryLock t = false) done) as Hno.
  { apply (bool_decide_unpack _). vm_compute. exact I. }
  assert (map_Forall (λ (_ : nat) (t : Task SampleLocks.NamedLock nat),
                        finished t = true) done) as Hdone.
  { apply (bool_decide_unpack _). vm_compute. exact I. }
  split; [exact Hno |]. split; [exact Hdone |].
  refine (proj2 (withLock_leaves_no_lock SampleLocks.NamedLock nat
                   SampleLocks.lock_value SampleLocks.lock_name
                   {| world := idle_world; tasks := done |} _ Hno) Hdone).
  exists schedule. vm_compute. reflexivity.
Defined.

(** The call of process 0 under the Migrations lock, its callback running. *)
Lemma withLock_release_never_waits_witness :
  let t : Task SampleLocks.NamedLock nat :=
    {| task_pid := 0; task_call := WithLock SampleLocks.Migrations;
       task_pc := InCallback (0, 0) |} in
  let s :=
    {| world := {| busy := {[(0, "Migrations")]}; checked_out := {[(0, 0)]};
                   advisory := {[ 200%Z := ((0, 0), 1%positive) ]} |};
       tasks := {[ 0 := t ]} |} in
  ∃ s',
    run SampleLocks.lock_value SampleLocks.lock_name
      [Do 0 (Settle (Err (Foreign "boom"))); Do 0 Resume; Do 0 Resume; Do 0 Resume] s
      = Some s'
    ∧ tasks s' = <[0 := at_pc t (Exit (Err (Foreign "boom")))]> (tasks s)
    ∧ world s'
      = free_key 0 "Migrations"
          (check_in (0, 0) (Pg.advisory_unlock 200 (0, 0) (world s)).2)
    ∧ ((0, "Migrations") ∉ busy (world s'))
    ∧ ((0, 0) ∉ checked_out (world s')).
Proof.
  intros t s.
  destruct (withLock_release_never_waits SampleLocks.NamedLock nat
              SampleLocks.lock_value SampleLocks.lock_name
              s 0 t SampleLocks.Migrations (0, 0) (Err (Foreign "boom"))
              eq_refl eq_refl eq_refl)
    as (s' & Hrun & Htasks & Hworld & Hkey & Hconn & _).
  exists s'. repeat split; assumption.
Defined.

(** ** Migrations *)

Module MigrationFacts.

Import Migrations.

Lemma has_embedding (names : list string) :
  existsb (λ name, bool_decide (name = "embedding")) names
  = bool_decide ("embedding" ∈ names).
Proof.
  induction names as [|name names IH]; [done |]. simpl. rewrite IH.
  repeat case_bool_decide; simpl; set_solver.
Qed.

Lemma sent_before_here (a b : string) (sent : list string) :
  b ∈ sent → sent_before a b (a :: sent).
Proof.
  intros (middle & back & ->)%list_elem_of_split. by exists [], middle, back.
Qed.

Lemma front_cons {A} (P : A → Prop) (x : A) (l tail : list A) :
  P x →
  (∃ front, l = front ++ tail ∧ Forall P front) →
  ∃ front, x :: l = front ++ tail ∧ Forall P front.
Proof.
  intros Hx (front & -> & Hfront). exists (x :: front). split; [done |].
  by apply Forall_cons.
Qed.

Lemma sent_before_later (a b text : string) (sent : list string) :
  sent_before a b sent → sent_before a b (text :: sent).
Proof.
  intros (front & middle & back & ->). by exists (text :: front), middle, back.
Qed.

End MigrationFacts.

(** Decide a closed question by evaluation. *)
Ltac by_evaluation := apply (bool_decide_unpack _); vm_compute; exact I.

Ltac find_sent_before :=
  first [ apply MigrationFacts.sent_before_here; by_evaluation
        | apply MigrationFacts.sent_before_later; find_sent_before ].

Section MigrationDataFacts.

Import Migrations.

Variable vectorExtension : DatabaseExtension.
Variable columns : string → list string.

(** X13: [AddFaceSearchRelation.up] loses no embedding it found.  It
    truncates [smart_search] exactly when that table has no [embedding]
    column yet; it copies the face embeddings into [face_search] exactly
    when [asset_faces] has the column, and then the copy is sent before the
    column is dropped.  This holds under every kind, the index statements
    coming last. *)
Theorem AddFaceSearchRelation_up_keeps_embeddings :
  let sent := (Runner.run (AddFaceSearchRelation_up vectorExtension columns)).2 in
  (truncate_smart_search ∈ sent ↔ "embedding" ∉ columns "smart_search")
  ∧ (copy_face_embeddings ∈ sent ↔ "embedding" ∈ columns "asset_faces")
  ∧ ("embedding" ∈ columns "asset_faces" →
     sent_before copy_face_embeddings drop_face_embeddings sent)
  ∧ drop_face_embeddings ∈ sent.
Proof.
  unfold AddFaceSearchRelation_up, hasEmbeddings, Runner.run, Runner.bind,
    Runner.query, Runner.query_rows, Runner.call, Runner.ret, Runner.lift.
  rewrite !MigrationFacts.has_embedding.
  destruct (bool_decide ("embedding" ∈ columns "smart_search")) eqn:Hassets;
    destruct (bool_decide ("embedding" ∈ columns "asset_faces")) eqn:Hfaces;
    [ apply bool_decide_eq_true in Hassets | apply bool_decide_eq_true in Hassets
    | apply bool_decide_eq_false in Hassets | apply bool_decide_eq_false in Hassets ];
    [ apply bool_decide_eq_true in Hfaces | apply bool_decide_eq_false in Hfaces
    | apply bool_decide_eq_true in Hfaces | apply bool_decide_eq_false in Hfaces ];
    destruct vectorExtension; simpl;
    (split; [split; [first [done | intros Hin; exfalso; revert Hin; by_evaluation]
                    | first [intros _; by_evaluation | done]] |]);
    (split; [split; [first [done | intros Hin; exfalso; revert Hin; by_evaluation]
                    | first [intros _; by_evaluation | done]] |]);
    (split; [first [done | intros _; find_sent_before] | by_evaluation]).
Qed.

End MigrationDataFacts.

Section MigrationIndexFacts.

Import Migrations.

Variable columns : string → list string.

(** X14: the index statements of [AddFaceSearchRelation.up] come last.
    Under a kind without an index statement the migration throws the
    configuration error only after every table change was sent, the drop of
    the [asset_faces] column included, and no statement creating an index
    was sent; under a supported kind it returns, the last two statements
    being the creation of [clip_index] on [smart_search] and of
    [face_index] on [face_search], in this order. *)
Theorem AddFaceSearchRelation_up_indexes_last :
  (∀ name,
     let run := Runner.run (AddFaceSearchRelation_up (OtherExtension name) columns) in
     run.1 = Err (UnsupportedVectorExtension (OtherExtension name))
     ∧ drop_face_embeddings ∈ run.2
     ∧ Forall (λ text, Str.includes text "CREATE INDEX" = false) run.2)
  ∧ (∀ vectorExtension clip face,
       createVectorIndex vectorExtension "smart_search" "clip_index" = Ok clip →
       createVectorIndex vectorExtension "face_search" "face_index" = Ok face →
       let run := Runner.run (AddFaceSearchRelation_up vectorExtension columns) in
       run.1 = Ok tt
       ∧ ∃ front, run.2 = front ++ [clip; face]
                  ∧ Forall (λ text, Str.includes text "CREATE INDEX" = false) front).
Proof.
  split.
  - intros name.
    unfold AddFaceSearchRelation_up, hasEmbeddings, Runner.run, Runner.bind,
      Runner.query, Runner.query_rows, Runner.call, Runner.ret, Runner.lift.
    destruct (existsb _ (columns "smart_search"));
      destruct (existsb _ (columns "asset_faces")); simpl;
      (split; [done |]); (split; [by_evaluation |]);
      repeat (apply Forall_cons; split; [by vm_compute |]); apply Forall_nil_2.
  - intros vectorExtension clip face Hclip Hface.
    unfold AddFaceSearchRelation_up, hasEmbeddings, Runner.run, Runner.bind,
      Runner.query, Runner.query_rows, Runner.call, Runner.ret, Runner.lift.
    destruct vectorExtension; try done;
      injection Hclip as <-; injection Hface as <-;
      destruct (existsb _ (columns "smart_search"));
      destruct (existsb _ (columns "asset_faces")); simpl;
      (split; [done |]);
      repeat (apply MigrationFacts.front_cons; [by vm_compute |]);
      by exists [].
Qed.

(** X15: [AddFaceSearchRelation.down] copies the embeddings back into
    [asset_faces] before it drops [face_search], under every kind; under a
    supported kind it ends with the creation of [face_index] on
    [asset_faces], and under any other it throws once the table is
    dropped, no index statement being sent. *)
Theorem AddFaceSearchRelation_down_copies_back (vectorExtension : DatabaseExtension) :
  let run := Runner.run (AddFaceSearchRelation_down vectorExtension) in
  sent_before copy_back_face_embeddings "DROP TABLE face_search" run.2
  ∧ match createVectorIndex vectorExtension "asset_faces" "face_index" with
    | Ok statement => run.1 = Ok tt ∧ last run.2 = Some statement
    | Err e =>
        run.1 = Err e
        ∧ last run.2 = Some "DROP TABLE face_search"
        ∧ Forall (λ text, Str.includes text "CREATE INDEX" = false) run.2
    end.
Proof.
  unfold AddFaceSearchRelation_down, Runner.run, Runner.bind,
    Runner.query, Runner.call, Runner.ret, Runner.lift.
  destruct vectorExtension; simpl; (split; [find_sent_before |]);
    try (by split).
  split; [done |]. split; [done |].
  repeat (apply Forall_cons; split; [by vm_compute |]); apply Forall_nil_2.
Qed.

(** X16: [AddFaceEmbeddingIndex.up] switches the pgvector compatibility on
    exactly under the vectors kind, and sets the search path before it
    asks for the index statement: under a supported kind it returns, the
    statement creating [face_index] on [asset_faces] being the last sent,
    right after the search path; under any other kind it throws, the
    search path being all that was sent. *)
Theorem AddFaceEmbeddingIndex_up_sent (vectorExtension : DatabaseExtension) :
  let run := Runner.run (AddFaceEmbeddingIndex_up vectorExtension) in
  (set_compatibility ∈ run.2 ↔ vectorExtension = VECTORS)
  ∧ match createVectorIndex vectorExtension "asset_faces" "face_index" with
    | Ok statement =>
        run.1 = Ok tt
        ∧ run.2 = (if decide (vectorExtension = VECTORS)
                   then [set_compatibility] else [])
                  ++ [set_search_path; statement]
    | Err e => run.1 = Err e ∧ run.2 = [set_search_path]
    end.
Proof.
  unfold AddFaceEmbeddingIndex_up, Runner.run, Runner.bind,
    Runner.query, Runner.call, Runner.ret, Runner.lift.
  destruct vectorExtension; simpl; (split; [| done]);
    (split; [intros Hin; exfalso; revert Hin; by_evaluation | done])
    || (split; [done | intros _; by_evaluation]).
Qed.

(** X17: [AddCLIPEmbeddingIndex.up] asks the database for the kind first.
    When that fails, the failure is the migration's and nothing more is
    sent; when it answers a kind, the setting of the search path and the
    statement creating [clip_index] on [smart_search] follow what the
    detection sent, after the pgvector compatibility under the vectors
    kind; an answer without an index statement makes the migration throw
    after the search path. *)
Theorem AddCLIPEmbeddingIndex_up_sent
    (getVectorExtension : Runner.Q string DatabaseExtension) :
  let run := Runner.run (AddCLIPEmbeddingIndex_up getVectorExtension) in
  match Runner.run getVectorExtension with
  | (Err e, asked) => run = (Err e, asked)
  | (Ok vectorExtension, asked) =>
      match createVectorIndex vectorExtension "smart_search" "clip_index" with
      | Ok statement =>
          run = (Ok tt,
                 asked
                 ++ (if decide (vectorExtension = VECTORS)
                     then [set_compatibility] else [])
                 ++ [set_search_path; statement])
      | Err e => run = (Err e, asked ++ [set_search_path])
      end
  end.
Proof.
  unfold AddCLIPEmbeddingIndex_up, Runner.run, Runner.bind,
    Runner.query, Runner.call, Runner.ret, Runner.lift.
  destruct (getVectorExtension []) as [[vectorExtension|e] asked]; [| done].
  destruct vectorExtension; simpl; by rewrite <- ?app_assoc.
Qed.

End MigrationIndexFacts.

(** ** Running the migrations *)

(** X18: [runMigrations] logs its line first and then initializes the data
    source.  There is no [finally]: the data source is destroyed only when
    both the initialization and the run of the migrations returned; when
    either throws, its failure is the caller's and [destroy] is never
    called.  The migrations are run, with the options as given, exactly
    when the initialization returned. *)
Theorem runMigrations_destroy
    (initialize_outcome : Result unit)
    (migrations_outcome : MigrationOptions → Result unit)
    (destroy_outcome : Result unit) (options : MigrationOptions) :
  let run :=
    Runner.run (runMigrations initialize_outcome migrations_outcome
                  destroy_outcome options) in
  run.2 !! 0 = Some (LoggedLine "Running migrations, this may take a while")
  ∧ run.2 !! 1 = Some Initialized
  ∧ (MigrationsRun options ∈ run.2 ↔ initialize_outcome = Ok tt)
  ∧ (Destroyed ∈ run.2
     ↔ initialize_outcome = Ok tt ∧ migrations_outcome options = Ok tt)
  ∧ (∀ e, initialize_outcome = Err e → run.1 = Err e)
  ∧ (∀ e, initialize_outcome = Ok tt → migrations_outcome options = Err e →
          run.1 = Err e)
  ∧ (initialize_outcome = Ok tt → migrations_outcome options = Ok tt →
     run.1 = destroy_outcome).
Proof.
  unfold runMigrations, Runner.run, Runner.bind, Runner.call.
  destruct initialize_outcome as [[]|e1]; simpl;
    [destruct (migrations_outcome options) as [[]|e2]; simpl |];
    repeat split; try done; try (intros; congruence);
    try (rewrite ?elem_of_cons, ?elem_of_nil; naive_solver);
    exfalso; set_solver.
Qed.
